(** * Pysegine: the inverted-index search engine of [search.py]

  A shallow embedding of [BOWInvertedIndexEngine] (tokenizer, index
  builder, cursor-based intersection loop) and of
  [BOWInvertedIndexEngineWithCache] (the LRU result cache around it),
  with the properties of the engine proved over the embedding.

  Conventions.
  - A Python [str] is a [string]; each [ascii] stands for the code point
    of the same number, so the texts covered are those over
    U+0000..U+00FF, on which [str.lower] works character by character.
    It does not on U+0130: [Wide] has the tokenizer on texts that may hold
    it, and [AnyText] the engine over them.  No statement below relies on
    a word being left alone when it is tokenized again, which holds on
    U+0000..U+00FF and fails with U+0130; where a statement needs it of a
    query, it says so.
  - A Python [dict] is a [gmap]; a Python [set] of words is a
    [gset string].  The order in which Python iterates over a set is not
    specified by the language: it is a parameter, [set_iter].
  - Identifiers are any type with decidable equality (Python's [==]) and
    a decidable relation [lt] (Python's [<]).
  - An uncaught Python exception is an explicit [Raise] outcome. *)

From Stdlib Require Import Ascii String.
From stdpp Require Import base option list strings gmap sorting.

(** ** The tokenizer: [parse_text_to_word] *)

Module Tokenizer.

Definition code (c : ascii) : nat := nat_of_ascii c.

Definition in_range (lo hi n : nat) : bool := Nat.leb lo n && Nat.leb n hi.

(** [str.isalnum] on U+0000..U+00FF: the ASCII digits and letters, the
    Latin-1 letters (all of U+00C0..U+00FF but the two signs U+00D7 and
    U+00F7, and U+00AA, U+00B5, U+00BA) and the Latin-1 numerics
    (superscripts U+00B2, U+00B3, U+00B9, fractions U+00BC..U+00BE). *)
Definition is_alnum (c : ascii) : bool :=
  let n := code c in
  in_range 48 57 n || in_range 65 90 n || in_range 97 122 n
  || bool_decide (n ∈ [170; 178; 179; 181; 185; 186; 188; 189; 190])
  || in_range 192 214 n || in_range 216 246 n || in_range 248 255 n.

(** The class [\w] of [re] on [str] patterns: alphanumeric or underscore. *)
Definition is_word (c : ascii) : bool :=
  is_alnum c || bool_decide (c = "_"%char).

(** [str.isspace] on U+0000..U+00FF. *)
Definition is_space (c : ascii) : bool :=
  let n := code c in
  in_range 9 13 n || in_range 28 32 n || bool_decide (n ∈ [133; 160]).

Definition space : ascii := " "%char.

(** [str.lower] on one character of U+0000..U+00FF: the upper-case
    letters are A..Z, U+00C0..U+00D6 and U+00D8..U+00DE, each 32 below
    its lower-case letter. *)
Definition lower_char (c : ascii) : ascii :=
  let n := code c in
  if in_range 65 90 n || in_range 192 214 n || in_range 216 222 n
  then ascii_of_nat (n + 32) else c.

Fixpoint map_string (f : ascii → ascii) (s : string) : string :=
  match s with
  | EmptyString => EmptyString
  | String c s' => String (f c) (map_string f s')
  end.

(** [re.sub(r'[^\w ]', ' ', text)] *)
Definition re_sub (text : string) : string :=
  map_string (λ c, if is_word c || bool_decide (c = space) then c else space) text.

(** [text.lower()] on a text over U+0000..U+00FF, where it maps
    character by character; [Wide.lower] has a character beyond, for which
    it does not. *)
Definition lower (text : string) : string := map_string lower_char text.

(** [s.split(sep)] with every character satisfying [sep] a separator of
    its own: consecutive separators give empty pieces, and the empty
    string gives one empty piece. *)
Fixpoint split (sep : ascii → bool) (s : string) : list string :=
  match s with
  | EmptyString => [EmptyString]
  | String c s' =>
      if sep c then EmptyString :: split sep s'
      else match split sep s' with
           | [] => [String c EmptyString]
           | w :: ws => String c w :: ws
           end
  end.

(** [filter(None, word_list)]: the non-empty strings. *)
Definition non_blank (l : list string) : list string :=
  filter (λ w, w ≠ EmptyString) l.

(** The list of words handed to [set(...)]. *)
Definition word_list (text : string) : list string :=
  non_blank (split (λ c, bool_decide (c = space)) (lower (re_sub text))).

Definition parse_text_to_word (text : string) : gset string :=
  list_to_set (word_list text).

(** The tokenizer in the words of the design document: every character
    that is not [keep]-able or whitespace becomes a space, the text is
    lower-cased, split on whitespace, and the empty tokens are dropped.
    The document says "alphanumeric" for [keep]. *)
Definition tokenize_with (keep : ascii → bool) (text : string) : gset string :=
  let replaced :=
    map_string (λ c, if keep c || is_space c then c else space) text in
  list_to_set (non_blank (split is_space (lower replaced))).

Definition tokenize_spec : string → gset string := tokenize_with is_alnum.

(** Every character of the string satisfies [P]. *)
Fixpoint all_chars (P : ascii → bool) (s : string) : bool :=
  match s with
  | EmptyString => true
  | String c s' => P c && all_chars P s'
  end.

(** What [lower] after [re.sub] does to one character. *)
Definition normalize_char (c : ascii) : ascii :=
  lower_char (if is_word c || bool_decide (c = space) then c else space).

End Tokenizer.

Export Tokenizer.

(** ** Outcomes of a call *)

Inductive exn := IndexError | KeyError | ValueError.

(** [Diverge] is the outcome of a loop that has used up its fuel; the
  theorems below show that [search] never has it. *)
Inductive outcome (A : Type) :=
| Ret (a : A)
| Raise (e : exn)
| Diverge.
Arguments Ret {A} a.
Arguments Raise {A} e.
Arguments Diverge {A}.

(** ** The engine: [BOWInvertedIndexEngine] *)

Section Engine.
Context {Id : Type} `{EqDecision Id}.
(** Python's [<] on identifiers. *)
Context (lt : relation Id) `{!RelDecision lt}.
(** The order in which a set of words is iterated. *)
Variable set_iter : gset string → list string.

Local Abbreviation index := (gmap string (list Id)).

(** The body of the loop of [process_corpus] for one word. *)
Definition append_posting (id : Id) (inverted_index : index) (word : string) : index :=
  match inverted_index !! word with
  | None => <[word := [] ++ [id]]> inverted_index
  | Some postings => <[word := postings ++ [id]]> inverted_index
  end.

Definition process_corpus (inverted_index : index) (id : Id) (text : string) : index :=
  foldl (append_posting id) inverted_index (set_iter (parse_text_to_word text)).

(** The index after a sequence of [process_corpus] calls on a new engine. *)
Definition build (docs : list (Id * string)) : index :=
  foldl (λ inverted_index d, process_corpus inverted_index d.1 d.2) ∅ docs.

(** The [for] loop that fills [current_ids] (enumerating the query words
    from position [idx] on). *)
Inductive scan :=
  | Ids (current_ids : list Id)
  | Exhausted
  | ScanError (e : exn).

Fixpoint scan_cursors (inverted_index : index) (query_words_index : list nat)
    (idx : nat) (query_words : list string) (current_ids : list Id) : scan :=
  match query_words with
  | [] => Ids current_ids
  | query_word :: rest =>
      match query_words_index !! idx with
      | None => ScanError IndexError
      | Some current_index =>
          match inverted_index !! query_word with
          | None => ScanError KeyError
          | Some current_inverted_list =>
              if decide (length current_inverted_list ≤ current_index)
              then Exhausted
              else
                match current_inverted_list !! current_index with
                | None => ScanError IndexError
                | Some d =>
                    scan_cursors inverted_index query_words_index (S idx) rest
                      (current_ids ++ [d])
                end
          end
      end
  end.

(** [min(l)]: the first element that no later element is below. *)
Definition py_min (l : list Id) : option Id :=
  match l with
  | [] => None
  | x :: xs => Some (foldl (λ m y, if decide (lt y m) then y else m) x xs)
  end.

(** [l.index(v)] *)
Fixpoint py_index (v : Id) (l : list Id) : option nat :=
  match l with
  | [] => None
  | x :: xs => if decide (x = v) then Some 0 else S <$> py_index v xs
  end.

(** [all(x == current_ids[0] for x in current_ids)]: on the empty list
    the generator yields nothing and [current_ids[0]] is not evaluated. *)
Definition all_same (current_ids : list Id) : bool :=
  match current_ids with
  | [] => true
  | d0 :: _ => forallb (λ x, bool_decide (x = d0)) current_ids
  end.

(** One iteration of [while True]. *)
Inductive step :=
  | Continue (query_words_index : list nat) (result : list Id)
  | Stop (result : list Id)
  | Fail (e : exn).

Definition loop_body (inverted_index : index) (query_words : list string)
    (query_words_index : list nat) (result : list Id) : step :=
  match scan_cursors inverted_index query_words_index 0 query_words [] with
  | ScanError e => Fail e
  | Exhausted => Stop result
  | Ids current_ids =>
      if all_same current_ids then
        match current_ids !! 0 with
        | None => Fail IndexError
        | Some d0 => Continue (S <$> query_words_index) (result ++ [d0])
        end
      else
        match py_min current_ids with
        | None => Fail ValueError
        | Some min_val =>
            match py_index min_val current_ids with
            | None => Fail ValueError
            | Some min_val_pos =>
                match query_words_index !! min_val_pos with
                | None => Fail IndexError
                | Some c =>
                    Continue (<[min_val_pos := c + 1]> query_words_index) result
                end
            end
        end
  end.

Fixpoint search_loop (fuel : nat) (inverted_index : index)
    (query_words : list string) (query_words_index : list nat)
    (result : list Id) : outcome (list Id) :=
  match fuel with
  | 0 => Diverge
  | S fuel' =>
      match loop_body inverted_index query_words query_words_index result with
      | Continue query_words_index' result' =>
          search_loop fuel' inverted_index query_words query_words_index' result'
      | Stop r => Ret r
      | Fail e => Raise e
      end
  end.

(** The postings list of a word, empty when the word is not a key. *)
Definition postings (inverted_index : index) (word : string) : list Id :=
  default [] (inverted_index !! word).

(** Enough iterations for any run of the loop: one more than the total
    length of the postings lists of the query words. *)
Definition search_fuel (inverted_index : index) (query_words : list string) : nat :=
  S (sum_list ((λ w, length (postings inverted_index w)) <$> query_words)).

Definition search (inverted_index : index) (query : string) : outcome (list Id) :=
  let query_words := set_iter (parse_text_to_word query) in
  let query_words_index := (λ _, 0) <$> query_words in
  if existsb (λ w, bool_decide (inverted_index !! w = None)) query_words
  then Ret []
  else search_loop (search_fuel inverted_index query_words) inverted_index
         query_words query_words_index [].

(** *** Vocabulary of the statements *)

(** The identifiers of the documents whose text has the word, in the order
    the documents were added. *)
Definition docs_with (docs : list (Id * string)) (word : string) : list Id :=
  (filter (λ d, word ∈ parse_text_to_word d.2) docs).*1.

(** What is left of each query word's postings list from its cursor on. *)
Definition remaining (inverted_index : index) (query_words : list string)
    (query_words_index : list nat) : list (list Id) :=
  zip_with (λ w c, drop c (postings inverted_index w)) query_words query_words_index.

(** The identifier under each cursor, when every cursor is in bounds. *)
Definition current_ids (inverted_index : index) (query_words : list string)
    (query_words_index : list nat) : option (list Id) :=
  mapM head (remaining inverted_index query_words query_words_index).

(** How many identifiers are left in all the lists together. *)
Definition left_total (inverted_index : index) (query_words : list string)
    (query_words_index : list nat) : nat :=
  sum_list (length <$> remaining inverted_index query_words query_words_index).

(** Every query word is a key of the index, and has a cursor. *)
Definition ready (inverted_index : index) (query_words : list string)
    (query_words_index : list nat) : Prop :=
  Forall (λ w, is_Some (inverted_index !! w)) query_words
  ∧ length query_words_index = length query_words.

(** No key of the index has an empty postings list. *)
Definition no_empty_list (inverted_index : index) : Prop :=
  ∀ w, inverted_index !! w ≠ Some [].

(** The identifier is in the postings list of every word of the set. *)
Definition in_all (inverted_index : index) (words : gset string) (d : Id) : Prop :=
  ∀ w, w ∈ words → d ∈ postings inverted_index w.

(** The invariant of the loop over increasing postings lists: what is
    left of each list is increasing, the result is increasing and below
    everything that is left, and the identifiers [common] to all the lists
    are those of the result and those still in all of what is left. *)
Definition merge_inv (common : Id → Prop) (left : list (list Id))
    (result : list Id) : Prop :=
  Forall (StronglySorted lt) left
  ∧ StronglySorted lt result
  ∧ (∀ r s x, r ∈ result → s ∈ left → x ∈ s → lt r x)
  ∧ (∀ x, common x ↔ x ∈ result ∨ Forall (λ s, x ∈ s) left).

End Engine.

(** ** The result cache: [LRUCache] and [BOWInvertedIndexEngineWithCache] *)

(** Modelled from the spec: [pylru.lrucache], the third-party container
    that [LRUCache] wraps and whose source is not part of the repository.
    It is a cache of at most
    [lru_size] entries, here listed from the most to the least recently
    used.  [key in cache] leaves the order alone; [cache[key]] marks the
    entry as the most recently used; [cache[key] = value] inserts or
    updates the entry as the most recently used and, when a new key meets a
    full cache, discards the least recently used entry.  As every Python
    container it holds references to its values, not copies. *)
Record lrucache (V : Type) := {
  lru_size : nat;
  lru_entries : list (string * V)
}.
Arguments lru_size {V} _.
Arguments lru_entries {V} _.

Module pylru.
Section Lru.
Context {V : Type}.

Definition new (size : nat) : lrucache V :=
  {| lru_size := size; lru_entries := [] |}.

Definition contains (key : string) (c : lrucache V) : bool :=
  bool_decide (key ∈ (lru_entries c).*1).

Definition without (key : string) (l : list (string * V)) : list (string * V) :=
  filter (λ kv, kv.1 ≠ key) l.

Definition getitem (key : string) (c : lrucache V) : option (V * lrucache V) :=
  match list_find (λ kv, kv.1 = key) (lru_entries c) with
  | None => None
  | Some (_, kv) =>
      Some (kv.2, {| lru_size := lru_size c;
                     lru_entries := kv :: without key (lru_entries c) |})
  end.

Definition setitem (key : string) (value : V) (c : lrucache V) : lrucache V :=
  if contains key c then
    {| lru_size := lru_size c;
       lru_entries := (key, value) :: without key (lru_entries c) |}
  else if decide (length (lru_entries c) < lru_size c) then
    {| lru_size := lru_size c;
       lru_entries := (key, value) :: lru_entries c |}
  else
    {| lru_size := lru_size c;
       lru_entries := (key, value) :: removelast (lru_entries c) |}.

End Lru.

(** What an access to [query] does to the list of cached queries of
    a cache of [size] entries: the query comes first, and what does not
    fit is dropped from the end. *)
Definition touch (size : nat) (l : list string) (query : string) : list string :=
  take size (query :: filter (λ k, k ≠ query) l).

End pylru.

Module LRUCache.
Section Methods.
Context {V : Type}.

Definition default_size : nat := 2.

Definition init (size : nat) : lrucache V := pylru.new size.

Definition has (key : string) (cache : lrucache V) : bool :=
  pylru.contains key cache.

(** [None] is the [KeyError] of a key that is not cached. *)
Definition get (key : string) (cache : lrucache V) : option (V * lrucache V) :=
  pylru.getitem key cache.

Definition set (key : string) (value : V) (cache : lrucache V) : lrucache V :=
  pylru.setitem key value cache.

End Methods.
End LRUCache.

(** A result of [search] is a Python list object, which the engine both
    keeps in its cache and hands to the caller: the list objects live in a
    store, and a [ref] is the position of one in it. *)
Abbreviation ref := nat.

Record cached_engine (Id : Type) := {
  inverted_index : gmap string (list Id);
  cache : lrucache ref;
  heap : list (list Id)
}.
Arguments inverted_index {Id} _.
Arguments cache {Id} _.
Arguments heap {Id} _.

(** The class [BOWInvertedIndexEngineWithCache]. *)
Module WithCache.
Section CachedEngine.
Context {Id : Type} `{EqDecision Id}.
Context (lt : relation Id) `{!RelDecision lt}.
Variable set_iter : gset string → list string.

(** [BOWInvertedIndexEngineWithCache()] over an index already built, with a
    cache of [size] entries; [__init__] itself always takes
    [LRUCache.default_size]. *)
Definition init_sized (size : nat) (index : gmap string (list Id)) : cached_engine Id :=
  {| inverted_index := index; cache := LRUCache.init size; heap := [] |}.

Definition init (index : gmap string (list Id)) : cached_engine Id :=
  init_sized LRUCache.default_size index.

(** The cached queries, from the most to the least recently used. *)
Definition keys (e : cached_engine Id) : list string :=
  (lru_entries (cache e)).*1.

(** The state of an engine over the index [index] with a cache of [size]
    entries: the cache is within its size, holds a query once, and every
    cached query refers to a list object with the result of the query. *)
Definition cache_ok (size : nat) (index : gmap string (list Id))
    (e : cached_engine Id) : Prop :=
  inverted_index e = index
  ∧ lru_size (cache e) = size
  ∧ length (lru_entries (cache e)) ≤ size
  ∧ NoDup (keys e)
  ∧ ∀ q r, (q, r) ∈ lru_entries (cache e) →
      ∃ l, heap e !! r = Some l ∧ search lt set_iter index q = Ret l.

(** [BOWInvertedIndexEngineWithCache.search]; the line it prints on a hit
    is left out. *)
Definition search (e : cached_engine Id) (query : string)
    : outcome ref * cached_engine Id :=
  if LRUCache.has query (cache e) then
    match LRUCache.get query (cache e) with
    | None => (Raise KeyError, e)
    | Some (r, cache') =>
        (Ret r, {| inverted_index := inverted_index e;
                   cache := cache'; heap := heap e |})
    end
  else
    match search lt set_iter (inverted_index e) query with
    | Ret result =>
        let r : ref := length (heap e) in
        (Ret r, {| inverted_index := inverted_index e;
                   cache := LRUCache.set query r (cache e);
                   heap := heap e ++ [result] |})
    | Raise ex => (Raise ex, e)
    | Diverge => (Diverge, e)
    end.

(** What the caller reads in the list object it was given. *)
Definition contents (e : cached_engine Id) (o : outcome ref) : outcome (list Id) :=
  match o with
  | Ret r =>
      match heap e !! r with
      | Some l => Ret l
      | None => Raise IndexError
      end
  | Raise ex => Raise ex
  | Diverge => Diverge
  end.

(** The caller changes the list object [r] in place. *)
Definition mutate (r : ref) (f : list Id → list Id) (e : cached_engine Id)
    : cached_engine Id :=
  {| inverted_index := inverted_index e; cache := cache e;
     heap := alter f r (heap e) |}.

(** A sequence of queries, each result read when it is returned. *)
Fixpoint run (e : cached_engine Id) (queries : list string)
    : list (outcome (list Id)) * cached_engine Id :=
  match queries with
  | [] => ([], e)
  | query :: rest =>
      let '(o, e1) := search e query in
      let '(os, e2) := run e1 rest in
      (contents e1 o :: os, e2)
  end.

End CachedEngine.
End WithCache.

(** ** A concrete instance: natural numbers as identifiers *)

Definition nat_docs : list (nat * string) :=
  [(1, "the cat sat"); (2, "the dog sat"); (3, "the cat ran")]%string.

Definition nat_build : list (nat * string) → gmap string (list nat) :=
  build (Id := nat) elements.

Definition nat_search : gmap string (list nat) → string → outcome (list nat) :=
  search Nat.lt elements.

(** The other iteration order of a set of two words. *)
Definition elements_rev (X : gset string) : list string := reverse (elements X).

(** ** The other engines: [SimpleEngine] and [BOWEngine] *)

(** A Python [dict] keeps its keys in the order they were first inserted;
    assigning to a key that is there replaces the value where it stands. *)
Section Dict.
Context {K V : Type} `{EqDecision K}.

Fixpoint dict_set (d : list (K * V)) (key : K) (value : V) : list (K * V) :=
  match d with
  | [] => [(key, value)]
  | (k, v) :: d' =>
      if decide (k = key) then (k, value) :: d'
      else (k, v) :: dict_set d' key value
  end.

End Dict.

(** [text.startswith(query)] *)
Fixpoint starts_with (text query : string) {struct query} : bool :=
  match query with
  | EmptyString => true
  | String a query' =>
      match text with
      | EmptyString => false
      | String b text' => bool_decide (a = b) && starts_with text' query'
      end
  end.

(** [query in text]: the query starts at some position of the text. *)
Fixpoint str_in (query text : string) : bool :=
  starts_with text query
  || match text with
     | EmptyString => false
     | String _ text' => str_in query text'
     end.

Module SimpleEngine.
Section Simple.
Context {Id : Type} `{EqDecision Id}.

Definition init : list (Id * string) := [].

Definition process_corpus (id_to_texts : list (Id * string)) (id : Id)
    (text : string) : list (Id * string) :=
  dict_set id_to_texts id text.

Definition search (id_to_texts : list (Id * string)) (query : string) : list Id :=
  (filter (λ d, str_in query d.2 = true) id_to_texts).*1.

Definition build (docs : list (Id * string)) : list (Id * string) :=
  foldl (λ d doc, process_corpus d doc.1 doc.2) init docs.

End Simple.
End SimpleEngine.

Module BOWEngine.
Section Bow.
Context {Id : Type} `{EqDecision Id}.
Variable set_iter : gset string → list string.

Definition init : list (Id * gset string) := [].

Definition process_corpus (id_to_word : list (Id * gset string)) (id : Id)
    (text : string) : list (Id * gset string) :=
  dict_set id_to_word id (parse_text_to_word text).

(** [query_match], over the query words in the order they are iterated. *)
Fixpoint query_match (query_words : list string) (words : gset string) : bool :=
  match query_words with
  | [] => true
  | query_word :: rest =>
      if decide (query_word ∈ words) then query_match rest words else false
  end.

Definition search (id_to_word : list (Id * gset string)) (query : string) : list Id :=
  let query_words := parse_text_to_word query in
  (filter (λ d, query_match (set_iter query_words) d.2 = true) id_to_word).*1.

Definition build (docs : list (Id * string)) : list (Id * gset string) :=
  foldl (λ d doc, process_corpus d doc.1 doc.2) init docs.

End Bow.
End BOWEngine.

(** The last text given for an identifier in a sequence of documents. *)
Definition last_text {Id : Type} (docs : list (Id * string)) (id : Id)
    (text : string) : Prop :=
  ∃ before after, docs = before ++ (id, text) :: after ∧ id ∉ after.*1.

(** ** Indexing through the engine with a cache *)

(** [process_corpus] as [BOWInvertedIndexEngineWithCache] inherits it: it
    works on the index and knows nothing of the cache. *)
Definition cached_process_corpus {Id : Type} (set_iter : gset string → list string)
    (e : cached_engine Id) (id : Id) (text : string) : cached_engine Id :=
  {| inverted_index := process_corpus set_iter (inverted_index e) id text;
     cache := cache e;
     heap := heap e |}.

(** ** File paths as identifiers *)

(** Python's [<] on [str]: the order of the code points at the first
    difference, a proper prefix coming first. *)
Fixpoint str_ltb (s t : string) : bool :=
  match s, t with
  | _, EmptyString => false
  | EmptyString, String _ _ => true
  | String a s', String b t' =>
      if Nat.ltb (code a) (code b) then true
      else if Nat.eqb (code a) (code b) then str_ltb s' t'
      else false
  end.

Definition str_lt (s t : string) : Prop := str_ltb s t = true.

Definition str_lt_dec : RelDecision str_lt :=
  λ s t, decide (str_ltb s t = true).

(** ** The callers: [add_corpus] and [main] *)

(** What the program writes: the prompt of [input], the line with the
    number of results, a result, and the line of a cache hit. *)
Inductive event :=
  | Prompt
  | Found (n : nat)
  | Printed (result : string)
  | CacheHit.

Inductive ending :=
  | Finished
  | EndOfInput
  | NoSuchFile
  | Crashed (e : exn)
  | Unfinished.

Section Callers.
Context {S : Type}.
(** The methods of the engine that [main] is given; [search] comes with
    what it prints itself. *)
Variable process_corpus_of : S → string → string → S.
Variable search_of : S → string → list event * outcome (list string) * S.

(** [add_corpus], over a file system that maps a path to the text of the
    file; [None] is the [OSError] of [open]. *)
Definition add_corpus (fs : gmap string string) (engine : S)
    (file_path : string) : option S :=
  match fs !! file_path with
  | None => None
  | Some text => Some (process_corpus_of engine file_path text)
  end.

(** The [while True] loop of [main] over the lines that [input] will
    read; [input] raises [EOFError] when there is no line left. *)
Fixpoint query_loop (engine : S) (inputs : list string) : list event * ending :=
  match inputs with
  | [] => ([Prompt], EndOfInput)
  | query :: rest =>
      if decide (query = "q"%string) then ([Prompt], Finished)
      else
        match search_of engine query with
        | (printed, Ret results, engine') =>
            let '(events, e) := query_loop engine' rest in
            (Prompt :: printed ++ Found (length results)
                    :: (Printed <$> results) ++ events, e)
        | (printed, Raise ex, _) => (Prompt :: printed, Crashed ex)
        | (printed, Diverge, _) => (Prompt :: printed, Unfinished)
        end
  end.

Definition main_files : list string :=
  [ "./text/1.txt"; "./text/2.txt"; "./text/3.txt"; "./text/4.txt" ]%string.

Definition add_files (fs : gmap string string) (engine : S)
    (files : list string) : option S :=
  foldl (λ acc file_path, acc ≫= λ e, add_corpus fs e file_path) (Some engine) files.

Definition main (fs : gmap string string) (search_engine : S)
    (inputs : list string) : list event * ending :=
  match add_files fs search_engine main_files with
  | None => ([], NoSuchFile)
  | Some engine => query_loop engine inputs
  end.

End Callers.

(** [search] of [BOWInvertedIndexEngine] as [main] calls it, on file
    paths: it prints nothing and leaves the engine as it is. *)
Definition inverted_search_of (set_iter : gset string → list string)
    (inv : gmap string (list string)) (query : string)
    : list event * outcome (list string) * gmap string (list string) :=
  ([], search str_lt (RelDecision0 := str_lt_dec) set_iter inv query, inv).

(** [search] of [BOWInvertedIndexEngineWithCache] as [main] calls it: the
    line of a hit, and the result read at once. *)
Definition cached_search_of (set_iter : gset string → list string)
    (e : cached_engine string) (query : string)
    : list event * outcome (list string) * cached_engine string :=
  let printed := if LRUCache.has query (cache e) then [CacheHit] else [] in
  let '(o, e') := WithCache.search str_lt (RelDecision0 := str_lt_dec)
                    set_iter e query in
  (printed, WithCache.contents e' o, e').

(** [main] on a new [BOWInvertedIndexEngine] and on a new
    [BOWInvertedIndexEngineWithCache]. *)
Definition main_inverted (set_iter : gset string → list string)
    (fs : gmap string string) (inputs : list string) : list event * ending :=
  main (process_corpus set_iter) (inverted_search_of set_iter) fs ∅ inputs.

Definition main_cached (set_iter : gset string → list string)
    (fs : gmap string string) (inputs : list string) : list event * ending :=
  main (cached_process_corpus set_iter) (cached_search_of set_iter)
       fs (WithCache.init ∅) inputs.

(** ** Texts beyond U+00FF *)

(** The engine never looks inside a text or a word: it calls the tokenizer
    and uses the words as keys.  [AnyText] has the methods of
    [BOWInvertedIndexEngine] over any type of texts and of words and any
    tokenizer [parse]; at [parse_text_to_word] they are [process_corpus]
    and [search] above. *)
Module AnyText.
Section Engine.
Context {Id : Type} `{EqDecision Id}.
Context {Text Word : Type} `{Countable Word}.
Variable parse : Text → gset Word.
Context (lt : relation Id) `{!RelDecision lt}.
Variable set_iter : gset Word → list Word.

Local Abbreviation index := (gmap Word (list Id)).

Definition append_posting (id : Id) (inverted_index : index) (word : Word) : index :=
  match inverted_index !! word with
  | None => <[word := [] ++ [id]]> inverted_index
  | Some postings => <[word := postings ++ [id]]> inverted_index
  end.

Definition process_corpus (inverted_index : index) (id : Id) (text : Text) : index :=
  foldl (append_posting id) inverted_index (set_iter (parse text)).

Definition build (docs : list (Id * Text)) : index :=
  foldl (λ inverted_index d, process_corpus inverted_index d.1 d.2) ∅ docs.

Fixpoint scan_cursors (inverted_index : index) (query_words_index : list nat)
    (idx : nat) (query_words : list Word) (current_ids : list Id) : scan :=
  match query_words with
  | [] => Ids current_ids
  | query_word :: rest =>
      match query_words_index !! idx with
      | None => ScanError IndexError
      | Some current_index =>
          match inverted_index !! query_word with
          | None => ScanError KeyError
          | Some current_inverted_list =>
              if decide (length current_inverted_list ≤ current_index)
              then Exhausted
              else
                match current_inverted_list !! current_index with
                | None => ScanError IndexError
                | Some d =>
                    scan_cursors inverted_index query_words_index (S idx) rest
                      (current_ids ++ [d])
                end
          end
      end
  end.

Definition loop_body (inverted_index : index) (query_words : list Word)
    (query_words_index : list nat) (result : list Id) : step :=
  match scan_cursors inverted_index query_words_index 0 query_words [] with
  | ScanError e => Fail e
  | Exhausted => Stop result
  | Ids current_ids =>
      if all_same current_ids then
        match current_ids !! 0 with
        | None => Fail IndexError
        | Some d0 => Continue (S <$> query_words_index) (result ++ [d0])
        end
      else
        match py_min lt current_ids with
        | None => Fail ValueError
        | Some min_val =>
            match py_index min_val current_ids with
            | None => Fail ValueError
            | Some min_val_pos =>
                match query_words_index !! min_val_pos with
                | None => Fail IndexError
                | Some c =>
                    Continue (<[min_val_pos := c + 1]> query_words_index) result
                end
            end
        end
  end.

Fixpoint search_loop (fuel : nat) (inverted_index : index)
    (query_words : list Word) (query_words_index : list nat)
    (result : list Id) : outcome (list Id) :=
  match fuel with
  | 0 => Diverge
  | S fuel' =>
      match loop_body inverted_index query_words query_words_index result with
      | Continue query_words_index' result' =>
          search_loop fuel' inverted_index query_words query_words_index' result'
      | Stop r => Ret r
      | Fail e => Raise e
      end
  end.

Definition postings (inverted_index : index) (word : Word) : list Id :=
  default [] (inverted_index !! word).

Definition search_fuel (inverted_index : index) (query_words : list Word) : nat :=
  S (sum_list ((λ w, length (postings inverted_index w)) <$> query_words)).

Definition search (inverted_index : index) (query : Text) : outcome (list Id) :=
  let query_words := set_iter (parse query) in
  let query_words_index := (λ _, 0) <$> query_words in
  if existsb (λ w, bool_decide (inverted_index !! w = None)) query_words
  then Ret []
  else search_loop (search_fuel inverted_index query_words) inverted_index
         query_words query_words_index [].

End Engine.
End AnyText.

(** The tokenizer on texts that may also hold U+0130, the capital I with
    a dot above, whose lower-case form is two characters: the letter i and
    U+0307, the combining dot above. *)
Module Wide.

Inductive uchar :=
  | Latin (c : ascii)
  | U0130
  | U0307.

Definition to_sum (c : uchar) : ascii + bool :=
  match c with
  | Latin a => inl a
  | U0130 => inr false
  | U0307 => inr true
  end.

Definition of_sum (x : ascii + bool) : uchar :=
  match x with
  | inl a => Latin a
  | inr false => U0130
  | inr true => U0307
  end.

#[global] Instance uchar_eq_dec : EqDecision uchar.
Proof. solve_decision. Defined.

#[global] Instance uchar_countable : Countable uchar :=
  inj_countable' to_sum of_sum (λ c, match c with Latin _ | U0130 | U0307 => eq_refl end).

(** A text over U+0000..U+00FF as a text here. *)
Definition of_string (s : string) : list uchar :=
  Latin <$> list_ascii_of_string s.

(** [\w]: U+0130 is a letter, U+0307 is a mark and no word character. *)
Definition is_word (c : uchar) : bool :=
  match c with
  | Latin a => Tokenizer.is_word a
  | U0130 => true
  | U0307 => false
  end.

(** [re.sub(r'[^\w ]', ' ', text)] *)
Definition re_sub (text : list uchar) : list uchar :=
  (λ c, if is_word c || bool_decide (c = Latin space) then c else Latin space) <$> text.

(** [text.lower()]: U+0130 becomes the two characters i, U+0307. *)
Definition lower_char (c : uchar) : list uchar :=
  match c with
  | Latin a => [Latin (Tokenizer.lower_char a)]
  | U0130 => [Latin "i"%char; U0307]
  | U0307 => [U0307]
  end.

Definition lower (text : list uchar) : list uchar :=
  text ≫= lower_char.

(** [s.split(' ')] *)
Fixpoint split (s : list uchar) : list (list uchar) :=
  match s with
  | [] => [[]]
  | c :: s' =>
      if bool_decide (c = Latin space) then [] :: split s'
      else match split s' with
           | [] => [[c]]
           | w :: ws => (c :: w) :: ws
           end
  end.

(** [filter(None, word_list)] *)
Definition non_blank (l : list (list uchar)) : list (list uchar) :=
  filter (λ w, w ≠ []) l.

Definition word_list (text : list uchar) : list (list uchar) :=
  non_blank (split (lower (re_sub text))).

Definition parse_text_to_word (text : list uchar) : gset (list uchar) :=
  list_to_set (word_list text).

End Wide.

(** ** Vocabulary of the further statements *)

(** The result so far is a sublist of what each cursor has passed. *)
Definition passed {Id : Type} (lists : list (list Id)) (left : list (list Id))
    (result : list Id) : Prop :=
  Forall2 (λ L s, ∃ pre, L = pre ++ s ∧ result `sublist_of` pre) lists left.

(** The program's output without the lines of cache hits. *)
Definition is_hit (ev : event) : bool :=
  match ev with
  | CacheHit => true
  | _ => false
  end.

Definition without_hits (events : list event) : list event :=
  filter (λ ev, is_hit ev = false) events.

(** A file system with the four files of [main]. *)
Definition example_texts : list string :=
  [ "the cat sat"; "the dog sat"; "the cat ran"; "a cat, a dog" ]%string.

Definition example_fs : gmap string string :=
  list_to_map (zip main_files example_texts).

(** The text [Istanbul] written with U+0130 for its first letter, and the
    word that the tokenizer makes of it: i, U+0307, stanbul. *)
Definition istanbul_text : list Wide.uchar :=
  Wide.U0130 :: Wide.of_string "stanbul".

Definition istanbul_word : list Wide.uchar :=
  Wide.Latin "i" :: Wide.U0307 :: Wide.of_string "stanbul".

Definition wide_build (set_iter : gset (list Wide.uchar) → list (list Wide.uchar))
    : list (nat * list Wide.uchar) → gmap (list Wide.uchar) (list nat) :=
  AnyText.build Wide.parse_text_to_word set_iter.

Definition wide_search (set_iter : gset (list Wide.uchar) → list (list Wide.uchar))
    : gmap (list Wide.uchar) (list nat) → list Wide.uchar → outcome (list nat) :=
  AnyText.search Wide.parse_text_to_word Nat.lt set_iter.

(** * Properties *)

(** ** The tokenizer *)

Section TokenizerFacts.

Lemma map_string_compose (f g : ascii → ascii) (s : string) :
  map_string f (map_string g s) = map_string (λ c, f (g c)) s.
Proof. induction s as [|c s IH]; simpl; [done | by rewrite IH]. Qed.

Lemma map_string_app (f : ascii → ascii) (s t : string) :
  map_string f (String.append s t) = String.append (map_string f s) (map_string f t).
Proof. induction s as [|c s IH]; simpl; [done | by rewrite IH]. Qed.

Lemma split_not_nil (sep : ascii → bool) (s : string) : split sep s ≠ [].
Proof.
  induction s as [|c s IH]; simpl; [done|].
  destruct (sep c); [done|]. by destruct (split sep s).
Qed.

(** Two texts that agree on where the separators are and on every other
    character split into the same pieces. *)
Lemma split_map_ext (sep1 sep2 : ascii → bool) (f1 f2 : ascii → ascii) (s : string) :
  (∀ c, sep1 (f1 c) = sep2 (f2 c)) →
  (∀ c, sep1 (f1 c) = false → f1 c = f2 c) →
  split sep1 (map_string f1 s) = split sep2 (map_string f2 s).
Proof.
  intros Hsep Hch. induction s as [|c s IH]; simpl; [done|].
  rewrite <- Hsep, IH. destruct (sep1 (f1 c)) eqn:E; [done|].
  by rewrite (Hch c E).
Qed.

Lemma lower_re_sub (text : string) :
  lower (re_sub text) = map_string normalize_char text.
Proof. unfold lower, re_sub. by rewrite map_string_compose. Qed.

Lemma non_blank_elem (w : string) (l : list string) :
  w ∈ non_blank l ↔ w ≠ EmptyString ∧ w ∈ l.
Proof. unfold non_blank. by rewrite list_elem_of_filter. Qed.

Lemma parse_text_to_word_elem (text w : string) :
  w ∈ parse_text_to_word text ↔ w ∈ word_list text.
Proof. unfold parse_text_to_word. by rewrite elem_of_list_to_set. Qed.

(** The two separators agree once the text is normalized: a character
    that is kept is no whitespace, and all whitespace ends up separating. *)
Lemma normalize_char_spec_agree (c : ascii) :
  let c' := lower_char (if is_word c || is_space c then c else space) in
  bool_decide (normalize_char c = space) = is_space c'
  ∧ (bool_decide (normalize_char c = space) = false → normalize_char c = c').
Proof. destruct c as [[] [] [] [] [] [] [] []]; vm_compute; split; congruence. Qed.

End TokenizerFacts.

Section TokenizerClaims.
Local Open Scope string_scope.

(** C8, as the design document words it, fails on an underscore: the
    class [\w] keeps it, so ["a_b"] is one word for the code and two for
    the document. *)
Lemma parse_text_to_word_underscore :
  parse_text_to_word "a_b" = {[ "a_b" ]}
  ∧ tokenize_spec "a_b" = {[ "a"; "b" ]}
  ∧ parse_text_to_word "a_b" ≠ tokenize_spec "a_b".
Proof.
  assert (parse_text_to_word "a_b" = {[ "a_b" ]}) as H1.
  { unfold parse_text_to_word. simpl. by rewrite (right_id_L ∅ (∪)). }
  assert (tokenize_spec "a_b" = {[ "a"; "b" ]}) as H2.
  { unfold tokenize_spec, tokenize_with. simpl. by rewrite (right_id_L ∅ (∪)). }
  split; [done|]. split; [done|].
  rewrite H1, H2. intros Heq.
  assert ("a_b" ∈ ({[ "a"; "b" ]} : gset string)) as Hin
    by (rewrite <- Heq; by apply elem_of_singleton).
  apply elem_of_union in Hin as [Hin|Hin]; by apply elem_of_singleton in Hin.
Qed.

(** C8 (amended): for every text the tokenizer turns each character that
    is neither a word character (alphanumeric or underscore) nor
    whitespace into a space, lower-cases, splits on whitespace, drops the
    empty tokens and returns the set of the tokens left; it is a total
    function, and the empty text has no token. *)
Theorem parse_text_to_word_refines (text : string) :
  parse_text_to_word text = tokenize_with is_word text
  ∧ parse_text_to_word "" = ∅.
Proof.
  split; [|done].
  unfold parse_text_to_word, tokenize_with, word_list, lower.
  rewrite lower_re_sub, map_string_compose. do 2 f_equal.
  apply (split_map_ext (λ c, bool_decide (c = space)) is_space normalize_char).
  - intros c. apply normalize_char_spec_agree.
  - intros c. apply normalize_char_spec_agree.
Qed.

End TokenizerClaims.

(** ** The tokenizer beyond U+00FF *)

Section WideFacts.

Lemma of_string_cons (c : ascii) (s : string) :
  Wide.of_string (String c s) = Wide.Latin c :: Wide.of_string s.
Proof. done. Qed.

Lemma of_string_inj (s t : string) : Wide.of_string s = Wide.of_string t → s = t.
Proof.
  revert t. induction s as [|c s IH]; intros [|d t]; try done.
  rewrite !of_string_cons. intros [= -> Hst]. f_equal. by apply IH.
Qed.

Lemma wide_re_sub (s : string) :
  Wide.re_sub (Wide.of_string s) = Wide.of_string (re_sub s).
Proof.
  induction s as [|c s IH]; [done|].
  change (re_sub (String c s))
    with (String (if is_word c || bool_decide (c = space) then c else space) (re_sub s)).
  rewrite !of_string_cons, <- IH. unfold Wide.re_sub. rewrite fmap_cons. f_equal.
  cbn [Wide.is_word]. destruct (is_word c); [done|]. simpl.
  destruct (decide (c = space)) as [->|Hne]; [done|].
  rewrite !bool_decide_eq_false_2; [done..|]. by intros [= ?].
Qed.

Lemma wide_lower (s : string) :
  Wide.lower (Wide.of_string s) = Wide.of_string (lower s).
Proof.
  induction s as [|c s IH]; [done|].
  change (lower (String c s)) with (String (lower_char c) (lower s)).
  rewrite !of_string_cons, <- IH. done.
Qed.

Lemma wide_split (s : string) :
  Wide.split (Wide.of_string s)
  = Wide.of_string <$> split (λ c, bool_decide (c = space)) s.
Proof.
  induction s as [|c s IH]; [done|].
  rewrite of_string_cons. cbn [Wide.split split]. rewrite IH.
  destruct (decide (c = space)) as [->|Hne].
  - by rewrite !bool_decide_eq_true_2.
  - rewrite !bool_decide_eq_false_2; [|done | by intros [= ?]].
    by destruct (split _ s).
Qed.

Lemma wide_non_blank (l : list string) :
  Wide.non_blank (Wide.of_string <$> l) = Wide.of_string <$> non_blank l.
Proof.
  unfold Wide.non_blank, non_blank. induction l as [|w l IH]; [done|].
  rewrite fmap_cons. destruct w as [|c w].
  - rewrite !filter_cons_False; [done | by intros ? | by intros ?].
  - rewrite !filter_cons_True by done. by rewrite fmap_cons, IH.
Qed.

(** On a text over U+0000..U+00FF the tokenizer here gives the words that
    [parse_text_to_word] gives. *)
Lemma wide_word_list (text : string) :
  Wide.word_list (Wide.of_string text) = Wide.of_string <$> word_list text.
Proof.
  unfold Wide.word_list, word_list.
  by rewrite wide_re_sub, wide_lower, wide_split, wide_non_blank.
Qed.

Lemma wide_parse_text_to_word (text : string) (w : list Wide.uchar) :
  w ∈ Wide.parse_text_to_word (Wide.of_string text)
  ↔ ∃ v, w = Wide.of_string v ∧ v ∈ parse_text_to_word text.
Proof.
  unfold Wide.parse_text_to_word, parse_text_to_word.
  rewrite elem_of_list_to_set, wide_word_list, list_elem_of_fmap.
  by setoid_rewrite elem_of_list_to_set.
Qed.

End WideFacts.

Section AnyTextFacts.
Context {Id : Type} `{EqDecision Id}.
Context (lt : relation Id) `{!RelDecision lt}.
Variable set_iter : gset string → list string.

(** The engine over any tokenizer is, at [parse_text_to_word], the engine
    of the texts over U+0000..U+00FF. *)
Lemma any_text_process_corpus (inv : gmap string (list Id)) (id : Id) (text : string) :
  AnyText.process_corpus parse_text_to_word set_iter inv id text
  = process_corpus set_iter inv id text.
Proof. reflexivity. Qed.

Lemma any_text_build (docs : list (Id * string)) :
  AnyText.build parse_text_to_word set_iter docs = build set_iter docs.
Proof. reflexivity. Qed.

Lemma any_text_search (inv : gmap string (list Id)) (query : string) :
  AnyText.search parse_text_to_word lt set_iter inv query
  = search lt set_iter inv query.
Proof. reflexivity. Qed.

End AnyTextFacts.

(** ** The index builder *)

Section BuilderFacts.
Context {Id : Type} `{EqDecision Id}.
Variable set_iter : gset string → list string.
Hypothesis set_iter_perm : ∀ X, set_iter X ≡ₚ elements X.

Local Abbreviation index := (gmap string (list Id)).

Lemma set_iter_elem (X : gset string) (w : string) : w ∈ set_iter X ↔ w ∈ X.
Proof. by rewrite (set_iter_perm X), elem_of_elements. Qed.

Lemma set_iter_NoDup (X : gset string) : NoDup (set_iter X).
Proof. rewrite (set_iter_perm X). apply NoDup_elements. Qed.

Lemma set_iter_empty : set_iter ∅ = [].
Proof.
  apply Permutation_nil_r. by rewrite (set_iter_perm ∅), elements_empty.
Qed.

Lemma set_iter_singleton (w : string) : set_iter {[ w ]} = [w].
Proof.
  apply Permutation_singleton_r.
  by rewrite (set_iter_perm {[ w ]}), elements_singleton.
Qed.

Lemma postings_Some (inv : index) (w : string) (l : list Id) :
  inv !! w = Some l → postings inv w = l.
Proof. unfold postings. by intros ->. Qed.

Lemma append_posting_lookup (id : Id) (inv : index) (w w' : string) :
  append_posting id inv w !! w'
  = if decide (w = w') then Some (postings inv w ++ [id]) else inv !! w'.
Proof.
  unfold append_posting, postings.
  destruct (inv !! w) eqn:E; simpl; rewrite lookup_insert; by case_decide.
Qed.

Lemma foldl_append_posting (id : Id) (ws : list string) (inv : index) (w : string) :
  NoDup ws →
  foldl (append_posting id) inv ws !! w
  = if decide (w ∈ ws) then Some (postings inv w ++ [id]) else inv !! w.
Proof.
  revert inv. induction ws as [|a ws IH]; intros inv Hnd; cbn [foldl].
  - case_decide as Hin; [by apply elem_of_nil in Hin | done].
  - apply NoDup_cons in Hnd as [Ha Hnd]. rewrite (IH _ Hnd).
    unfold postings at 1. rewrite !append_posting_lookup.
    destruct (decide (a = w)) as [->|Hne]; simpl.
    + destruct (decide (w ∈ ws)) as [?|_]; [done|].
      destruct (decide (w ∈ w :: ws)) as [_|Hn]; [done|].
      destruct Hn. by left.
    + destruct (decide (w ∈ ws)) as [Hin|Hin];
        destruct (decide (w ∈ a :: ws)) as [Hin'|Hin']; try done.
      * destruct Hin'. by right.
      * apply elem_of_cons in Hin' as [?|?]; [by subst | done].
Qed.

Lemma process_corpus_lookup (inv : index) (id : Id) (text w : string) :
  process_corpus set_iter inv id text !! w
  = if decide (w ∈ parse_text_to_word text)
    then Some (postings inv w ++ [id]) else inv !! w.
Proof.
  unfold process_corpus. rewrite foldl_append_posting by apply set_iter_NoDup.
  destruct (decide (w ∈ parse_text_to_word text)) as [Hin|Hin].
  - rewrite decide_True; [done | by apply set_iter_elem].
  - rewrite decide_False; [done | by rewrite set_iter_elem].
Qed.

Lemma process_corpus_no_empty_list (inv : index) (id : Id) (text : string) :
  no_empty_list inv → no_empty_list (process_corpus set_iter inv id text).
Proof.
  intros Hinv w. rewrite process_corpus_lookup. case_decide; [|apply Hinv].
  intros [= Heq]. by destruct (postings inv w).
Qed.

Lemma foldl_process_corpus (docs : list (Id * string)) (inv : index) (w : string) :
  no_empty_list inv →
  let inv' := foldl (λ i d, process_corpus set_iter i d.1 d.2) inv docs in
  no_empty_list inv' ∧ postings inv' w = postings inv w ++ docs_with docs w.
Proof.
  revert inv. induction docs as [|[id text] docs IH]; intros inv Hinv; simpl.
  - split; [done|]. unfold docs_with. rewrite ?filter_nil. simpl.
    by rewrite app_nil_r.
  - destruct (IH (process_corpus set_iter inv id text)
                (process_corpus_no_empty_list inv id text Hinv)) as [Hne Hpost].
    split; [done|]. rewrite Hpost. unfold postings at 1.
    rewrite process_corpus_lookup. unfold docs_with.
    destruct (decide (w ∈ parse_text_to_word text)) as [Hin|Hin]; simpl.
    + rewrite filter_cons_True by done. simpl. by rewrite <- (assoc_L (++)).
    + by rewrite filter_cons_False by done.
Qed.

(** The index after any sequence of [process_corpus] calls: a word is a
    key exactly when some document has it, and its postings list is the
    identifiers of those documents in the order they were added. *)
Lemma build_lookup (docs : list (Id * string)) (w : string) (l : list Id) :
  build set_iter docs !! w = Some l ↔ l = docs_with docs w ∧ l ≠ [].
Proof.
  destruct (foldl_process_corpus docs ∅ w) as [Hne Hpost].
  { intros w'. by rewrite lookup_empty. }
  fold (build set_iter docs) in Hne, Hpost.
  unfold postings in Hpost. rewrite lookup_empty in Hpost. simpl in Hpost.
  split.
  - intros Hl. rewrite Hl in Hpost. simpl in Hpost. subst l.
    split; [done|]. intros Hnil. rewrite Hnil in Hl. by apply (Hne w).
  - intros [-> Hnil]. destruct (build set_iter docs !! w) as [l|]; simpl in *.
    + by subst.
    + by rewrite <- Hpost in Hnil.
Qed.

Lemma docs_with_elem (docs : list (Id * string)) (w : string) (d : Id) :
  d ∈ docs_with docs w ↔ ∃ text, (d, text) ∈ docs ∧ w ∈ parse_text_to_word text.
Proof.
  unfold docs_with. rewrite list_elem_of_fmap. split.
  - intros [[d' text] [-> [Hw Hin]%list_elem_of_filter]]. by exists text.
  - intros [text [Hin Hw]]. exists (d, text). split; [done|].
    by apply list_elem_of_filter.
Qed.

Lemma docs_with_sublist (docs : list (Id * string)) (w : string) :
  docs_with docs w `sublist_of` docs.*1.
Proof. unfold docs_with. apply fmap_sublist, sublist_filter. Qed.

Lemma docs_with_NoDup (docs : list (Id * string)) (w : string) :
  NoDup docs.*1 → NoDup (docs_with docs w).
Proof. intros Hnd. eapply sublist_NoDup; [done | apply docs_with_sublist]. Qed.

End BuilderFacts.

(** ** The intersection loop *)

Section LoopFacts.
Context {Id : Type} `{EqDecision Id}.
Context (lt : relation Id) `{!RelDecision lt}.
Variable inv : gmap string (list Id).

Lemma head_drop (l : list Id) (c : nat) : head (drop c l) = l !! c.
Proof. by rewrite head_lookup, lookup_drop, Nat.add_0_r. Qed.

Lemma tail_drop (l : list Id) (c : nat) : tail (drop c l) = drop (S c) l.
Proof.
  revert c. induction l as [|x l IH]; intros [|c]; simpl; done.
Qed.

(** The [for] loop reads the head of what is left of every list, and
    stops at the first list with nothing left. *)
Lemma scan_cursors_heads (ws : list string) (cs : list nat) (k : nat) (acc : list Id) :
  Forall (λ w, is_Some (inv !! w)) ws →
  length cs = k + length ws →
  scan_cursors inv cs k ws acc
  = match mapM head (remaining inv ws (drop k cs)) with
    | Some ids => Ids (acc ++ ids)
    | None => Exhausted
    end.
Proof.
  revert k acc. induction ws as [|w ws IH]; intros k acc Hpres Hlen.
  - simpl. by rewrite app_nil_r.
  - apply Forall_cons in Hpres as [[l Hl] Hpres]. simpl in Hlen.
    destruct (lookup_lt_is_Some_2 cs k) as [c Hc]; [lia|].
    rewrite (drop_S cs c k Hc). cbn [scan_cursors remaining zip_with].
    fold (remaining inv ws (drop (S k) cs)).
    rewrite Hc, Hl, (postings_Some inv w l Hl).
    cbn [mapM]. rewrite head_drop.
    destruct (decide (length l ≤ c)) as [Hle|Hgt].
    + by rewrite (lookup_ge_None_2 l c Hle).
    + destruct (lookup_lt_is_Some_2 l c) as [d Hd]; [lia|]. rewrite Hd.
      rewrite (IH (S k) (acc ++ [d])) by (done || lia). simpl.
      destruct (mapM head (remaining inv ws (drop (S k) cs))); simpl; [|done].
      by rewrite <- (assoc_L (++)).
Qed.

Lemma remaining_length (ws : list string) (cs : list nat) :
  length cs = length ws → length (remaining inv ws cs) = length ws.
Proof. intros Hlen. unfold remaining. by rewrite length_zip_with_l_eq. Qed.

Lemma remaining_advance_all (ws : list string) (cs : list nat) :
  remaining inv ws (S <$> cs) = tail <$> remaining inv ws cs.
Proof.
  unfold remaining. revert cs. induction ws as [|w ws IH]; intros [|c cs]; simpl; try done.
  by rewrite IH, tail_drop.
Qed.

Lemma remaining_advance_one (ws : list string) (cs : list nat) (p c : nat) :
  cs !! p = Some c →
  remaining inv ws (<[p := c + 1]> cs) = alter tail p (remaining inv ws cs).
Proof.
  unfold remaining. revert cs p.
  induction ws as [|w ws IH]; intros [|c0 cs] [|p] Hc; simpl in *; try done.
  - injection Hc as ->. by rewrite tail_drop, Nat.add_1_r.
  - by rewrite (IH cs p Hc).
Qed.


Lemma forallb_eq_Forall (d : Id) (l : list Id) :
  forallb (λ x, bool_decide (x = d)) l = true ↔ Forall (λ x, x = d) l.
Proof.
  induction l as [|x l IH]; simpl.
  - split; [by constructor | done].
  - rewrite andb_true_iff, bool_decide_eq_true, IH, Forall_cons. tauto.
Qed.

Lemma all_same_cons (d0 : Id) (ids : list Id) :
  all_same (d0 :: ids) = true ↔ ∃ d, Forall (λ x, x = d) (d0 :: ids).
Proof.
  unfold all_same. rewrite forallb_eq_Forall. split; [by exists d0|].
  intros [d Hd]. pose proof Hd as [-> _]%Forall_cons. done.
Qed.

Lemma py_index_Some (v : Id) (l : list Id) (p : nat) :
  py_index v l = Some p → l !! p = Some v ∧ ∀ j, j < p → l !! j ≠ Some v.
Proof.
  revert p. induction l as [|x l IH]; intros p; simpl; [done|].
  destruct (decide (x = v)) as [->|Hne].
  - intros [= <-]. split; [done | lia].
  - destruct (py_index v l) as [q|]; simpl; [|done].
    intros [= <-]. destruct (IH q eq_refl) as [Hq Hfirst]. split; [done|].
    intros [|j] Hj; simpl; [congruence | apply Hfirst; lia].
Qed.

Lemma py_index_elem (v : Id) (l : list Id) : v ∈ l → is_Some (py_index v l).
Proof.
  induction l as [|x l IH]; simpl; [by intros ?%elem_of_nil|].
  intros Hin. destruct (decide (x = v)) as [|Hne]; [by eexists|].
  apply elem_of_cons in Hin as [->|Hin]; [done|].
  destruct (IH Hin) as [q ->]. by eexists.
Qed.

Lemma py_min_fold_elem (m : Id) (xs : list Id) :
  foldl (λ m y, if decide (lt y m) then y else m) m xs ∈ m :: xs.
Proof.
  revert m. induction xs as [|y xs IH]; intros m; simpl; [by left|].
  destruct (decide (lt y m)).
  - right. apply IH.
  - specialize (IH m). apply elem_of_cons in IH as [->|IH]; [by left|].
    by do 2 right.
Qed.

Lemma py_min_elem (l : list Id) (m : Id) : py_min lt l = Some m → m ∈ l.
Proof.
  destruct l as [|x xs]; simpl; [done|]. intros [= <-]. apply py_min_fold_elem.
Qed.

Lemma py_min_is_Some (l : list Id) : l ≠ [] → is_Some (py_min lt l).
Proof. destruct l; [done|]. by eexists. Qed.

Lemma py_min_fold_least `{!StrictOrder lt} (seen : list Id) (m : Id) (xs : list Id) :
  m ∈ seen → (∀ x, x ∈ seen → ¬ lt x m) →
  ∀ x, x ∈ seen ++ xs →
    ¬ lt x (foldl (λ m y, if decide (lt y m) then y else m) m xs).
Proof.
  revert seen m. induction xs as [|y xs IH]; intros seen m Hm Hseen x Hx; simpl.
  - rewrite app_nil_r in Hx. by apply Hseen.
  - change (y :: xs) with ([y] ++ xs) in Hx. rewrite (assoc_L (++)) in Hx.
    destruct (decide (lt y m)) as [Hlt|Hnlt].
    + apply (IH (seen ++ [y]) y); [| |done].
      { apply elem_of_app. right. by apply list_elem_of_singleton. }
      intros z [Hz| ->%list_elem_of_singleton]%elem_of_app.
      * intros Hzy. apply (Hseen z Hz). by transitivity y.
      * apply irreflexivity, _.
    + apply (IH (seen ++ [y]) m); [| |done].
      { apply elem_of_app. by left. }
      intros z [Hz| ->%list_elem_of_singleton]%elem_of_app; [by apply Hseen | done].
Qed.

(** [min] returns an element that nothing in the list is below. *)
Lemma py_min_least `{!StrictOrder lt} (l : list Id) (m : Id) :
  py_min lt l = Some m → ∀ x, x ∈ l → ¬ lt x m.
Proof.
  destruct l as [|x0 xs]; simpl; [done|]. intros [= <-] x Hx.
  apply (py_min_fold_least [x0] x0 xs); [by left| |done].
  intros z ->%list_elem_of_singleton. apply irreflexivity, _.
Qed.

(** One iteration, read on what is left of the lists. *)
Lemma loop_body_spec (ws : list string) (cs : list nat) (R : list Id) :
  ready inv ws cs → ws ≠ [] →
  match mapM head (remaining inv ws cs) with
  | None => loop_body lt inv ws cs R = Stop R
  | Some ids =>
      length ids = length ws
      ∧ ((∃ d, Forall (λ x, x = d) ids
             ∧ loop_body lt inv ws cs R = Continue (S <$> cs) (R ++ [d]))
         ∨ (∃ m p c, (¬ ∃ d, Forall (λ x, x = d) ids)
             ∧ py_min lt ids = Some m ∧ py_index m ids = Some p
             ∧ cs !! p = Some c
             ∧ loop_body lt inv ws cs R = Continue (<[p := c + 1]> cs) R))
  end.
Proof.
  intros [Hpres Hlen] Hne. unfold loop_body.
  rewrite (scan_cursors_heads ws cs 0 []) by done. rewrite drop_0.
  destruct (mapM head (remaining inv ws cs)) as [ids|] eqn:Hids; [|done].
  simpl. apply mapM_Some, Forall2_length in Hids.
  rewrite remaining_length in Hids by done. split; [done|].
  destruct ids as [|d0 ids]; [by destruct ws|].
  destruct (all_same (d0 :: ids)) eqn:Hsame.
  - left. exists d0. split; [|done].
    apply all_same_cons in Hsame as [d Hd].
    pose proof Hd as [-> _]%Forall_cons. done.
  - right. destruct (py_min_is_Some (d0 :: ids)) as [m Hm]; [done|].
    destruct (py_index_elem m (d0 :: ids)) as [p Hp]; [by apply py_min_elem|].
    destruct (py_index_Some _ _ _ Hp) as [Hpm _].
    destruct (lookup_lt_is_Some_2 cs p) as [c Hc].
    { apply lookup_lt_Some in Hpm. lia. }
    exists m, p, c. rewrite Hm, Hp, Hc. repeat split; try done.
    intros Hall. apply all_same_cons in Hall. congruence.
Qed.


(** The total length of what is left: the measure of the loop. *)
Lemma left_tail_all (Ss : list (list Id)) (ids : list Id) :
  mapM head Ss = Some ids →
  sum_list (length <$> (tail <$> Ss)) + length Ss = sum_list (length <$> Ss).
Proof.
  rewrite mapM_Some. induction 1 as [|s d Ss ids Hd _ IH]; simpl; [done|].
  destruct s as [|x s]; simplify_eq/=. lia.
Qed.

Lemma left_tail_one (Ss : list (list Id)) (ids : list Id) (p : nat) :
  mapM head Ss = Some ids → p < length ids →
  S (sum_list (length <$> alter tail p Ss)) = sum_list (length <$> Ss).
Proof.
  rewrite mapM_Some. intros HF. revert p.
  induction HF as [|s d Ss ids Hd _ IH]; intros p Hp; simpl in *; [lia|].
  destruct p as [|p]; simpl.
  - destruct s as [|x s]; simplify_eq/=. lia.
  - specialize (IH p ltac:(lia)). unfold fmap, alter in *. lia.
Qed.

(** Any property of (what is left, result) that both kinds of iteration
    keep holds when the loop returns, and the loop does return: some list
    has nothing left then. *)
Lemma search_loop_run (P : list (list Id) → list Id → Prop) (ws : list string) :
  ws ≠ [] →
  (∀ Ss ids d R, mapM head Ss = Some ids → ids ≠ [] →
     Forall (λ x, x = d) ids → P Ss R → P (tail <$> Ss) (R ++ [d])) →
  (∀ Ss ids m p R, mapM head Ss = Some ids →
     (¬ ∃ d, Forall (λ x, x = d) ids) →
     py_min lt ids = Some m → py_index m ids = Some p →
     P Ss R → P (alter tail p Ss) R) →
  ∀ fuel cs R,
    ready inv ws cs →
    sum_list (length <$> remaining inv ws cs) < fuel →
    P (remaining inv ws cs) R →
    ∃ R' Ss', search_loop lt fuel inv ws cs R = Ret R' ∧ [] ∈ Ss' ∧ P Ss' R'.
Proof.
  intros Hne Hall Hone. induction fuel as [|fuel IH]; intros cs R Hready Hfuel HP;
    [lia|].
  pose proof (loop_body_spec ws cs R Hready Hne) as Hbody. simpl.
  destruct (mapM head (remaining inv ws cs)) as [ids|] eqn:Hids.
  - destruct Hbody as [Hlen [(d & Hd & ->)|(m & p & c & Hnot & Hm & Hp & Hc & ->)]].
    + apply IH.
      * destruct Hready as [? Hl]. split; [done | by rewrite length_fmap].
      * rewrite remaining_advance_all.
        pose proof (left_tail_all _ _ Hids) as Hsum.
        rewrite remaining_length in Hsum by apply Hready.
        assert (0 < length ws) by (destruct ws; simpl; [done | lia]). lia.
      * rewrite remaining_advance_all. apply (Hall _ ids); try done.
        destruct ids; [by destruct ws | done].
    + apply IH.
      * destruct Hready as [? Hl]. split; [done | by rewrite length_insert].
      * rewrite (remaining_advance_one ws cs p c Hc).
        pose proof (left_tail_one _ _ p Hids) as Hsum.
        destruct (py_index_Some _ _ _ Hp) as [Hpm%lookup_lt_Some _]. lia.
      * rewrite (remaining_advance_one ws cs p c Hc). by apply (Hone _ ids m).
  - rewrite Hbody. exists R, (remaining inv ws cs). repeat split; [|done].
    apply mapM_None, Exists_exists in Hids as (s & Hs & Hhead).
    by destruct s.
Qed.


(** *** The invariant over increasing lists *)

Context `{!StrictOrder lt, !Trichotomy lt}.

Lemma elem_of_tail (x : Id) (s : list Id) : x ∈ tail s → x ∈ s.
Proof. destruct s; simpl; [done | by right]. Qed.

Lemma StronglySorted_tail (s : list Id) :
  StronglySorted lt s → StronglySorted lt (tail s).
Proof. destruct s; simpl; [done|]. by intros [_ ?]%StronglySorted_cons. Qed.

Lemma heads_all_equal (Ss : list (list Id)) (ids : list Id) (d : Id) :
  mapM head Ss = Some ids → Forall (λ x, x = d) ids →
  Forall (λ s, head s = Some d) Ss.
Proof.
  rewrite mapM_Some. induction 1 as [|s y Ss ids Hy _ IH]; [done|].
  intros [-> Hd]%Forall_cons. constructor; [done | by apply IH].
Qed.

Lemma elem_of_alter_tail (Ss : list (list Id)) (p : nat) (s' : list Id) :
  s' ∈ alter tail p Ss → ∃ s, s ∈ Ss ∧ ∀ x, x ∈ s' → x ∈ s.
Proof.
  intros [j Hj]%list_elem_of_lookup. rewrite list_lookup_alter in Hj.
  case_decide as Hpj.
  - subst j. destruct (Ss !! p) as [s|] eqn:Hs; simplify_eq/=.
    exists s. split; [by eapply list_elem_of_lookup_2|].
    intros x. apply elem_of_tail.
  - exists s'. split; [by eapply list_elem_of_lookup_2 | done].
Qed.

(** A match: every list has the same head. *)
Lemma merge_inv_all (common : Id → Prop) (Ss : list (list Id))
    (ids : list Id) (d : Id) (R : list Id) :
  mapM head Ss = Some ids → ids ≠ [] → Forall (λ x, x = d) ids →
  merge_inv lt common Ss R → merge_inv lt common (tail <$> Ss) (R ++ [d]).
Proof.
  intros Hids Hne Hd (Hsorted & HR & Hbelow & Hcommon).
  pose proof (heads_all_equal Ss ids d Hids Hd) as Hheads.
  rewrite Forall_forall in Hheads.
  assert (∃ s0, s0 ∈ Ss) as [s0 Hs0].
  { apply mapM_Some in Hids. destruct Hids as [|s ? ? ? _ _]; [done|].
    exists s. by left. }
  assert (∀ s, s ∈ Ss → d ∈ s) as Hdin.
  { intros s Hs. specialize (Hheads s Hs). destruct s; simplify_eq/=. by left. }
  assert (∀ s x, s ∈ Ss → x ∈ tail s → lt d x) as Hdbelow.
  { intros s x Hs Hx. specialize (Hheads s Hs).
    rewrite Forall_forall in Hsorted. specialize (Hsorted s Hs).
    destruct s as [|y t]; simplify_eq/=.
    apply StronglySorted_cons in Hsorted as [Hall _].
    rewrite Forall_forall in Hall. by apply Hall. }
  repeat split.
  - apply Forall_fmap. eapply Forall_impl; [exact Hsorted|].
    intros s. apply StronglySorted_tail.
  - apply StronglySorted_app. repeat split; [|done|by repeat constructor].
    intros r x Hr ->%list_elem_of_singleton. by apply (Hbelow r s0 d), Hdin.
  - intros r s' x [Hr| ->%list_elem_of_singleton]%elem_of_app
      (s & -> & Hs)%list_elem_of_fmap Hx.
    + by apply (Hbelow r s x), elem_of_tail.
    + by apply (Hdbelow s).
  - intros Hx. apply Hcommon in Hx as [Hx|Hx].
    + left. apply elem_of_app. by left.
    + destruct (decide (x = d)) as [->|Hxd].
      * left. apply elem_of_app. right. by apply list_elem_of_singleton.
      * right. apply Forall_fmap, Forall_forall. intros s Hs. simpl.
        rewrite Forall_forall in Hx. specialize (Hx s Hs).
        specialize (Hheads s Hs). destruct s as [|y t]; simplify_eq/=.
        by apply elem_of_cons in Hx as [?|?].
  - intros [[Hx| ->%list_elem_of_singleton]%elem_of_app|Hx]; apply Hcommon.
    + by left.
    + right. by apply Forall_forall.
    + right. apply Forall_forall. intros s Hs.
      rewrite Forall_forall in Hx. apply elem_of_tail, Hx.
      apply list_elem_of_fmap. by exists s.
Qed.


(** No match: the cursor of the first least head moves; its head is below
    the head of some other list, so it is not in that list. *)
Lemma merge_inv_one (common : Id → Prop) (Ss : list (list Id))
    (ids : list Id) (m : Id) (p : nat) (R : list Id) :
  mapM head Ss = Some ids → (¬ ∃ d, Forall (λ x, x = d) ids) →
  py_min lt ids = Some m → py_index m ids = Some p →
  merge_inv lt common Ss R → merge_inv lt common (alter tail p Ss) R.
Proof.
  intros Hids%mapM_Some Hnot Hm Hp (Hsorted & HR & Hbelow & Hcommon).
  destruct (py_index_Some _ _ _ Hp) as [Hpm _].
  destruct (Forall2_lookup_r _ _ _ _ _ Hids Hpm) as (sp & Hsp & Hspm).
  assert (∃ s h, s ∈ Ss ∧ head s = Some h ∧ lt m h) as (sj & h & Hsj & Hh & Hmh).
  { assert (Exists (not ∘ (λ x, x = m)) ids) as (h & Hin & Hhm)%Exists_exists.
    { apply not_Forall_Exists; [apply _|]. intros Hall. apply Hnot. by exists m. }
    apply list_elem_of_lookup in Hin as [j Hj].
    destruct (Forall2_lookup_r _ _ _ _ _ Hids Hj) as (s & Hs & Hsh).
    exists s, h. split; [by eapply list_elem_of_lookup_2|]. split; [done|].
    destruct (trichotomy lt m h) as [?|[?|Hlt]]; [done|by destruct Hhm|].
    destruct (py_min_least ids m Hm h); [|done].
    by eapply list_elem_of_lookup_2. }
  assert (∀ x, Forall (λ s, x ∈ s) Ss → x ≠ m) as Hxm.
  { intros x Hx ->. rewrite Forall_forall in Hx. specialize (Hx sj Hsj).
    rewrite Forall_forall in Hsorted. specialize (Hsorted sj Hsj).
    destruct sj as [|y t]; simplify_eq/=.
    apply StronglySorted_cons in Hsorted as [Hall _].
    rewrite Forall_forall in Hall.
    apply elem_of_cons in Hx as [->|Hx].
    - by apply (irreflexivity lt h).
    - apply (irreflexivity lt m). transitivity h; [done | by apply Hall]. }
  repeat split.
  - apply Forall_alter; [done|]. intros s _. apply StronglySorted_tail.
  - done.
  - intros r s' x Hr Hs' Hx.
    destruct (elem_of_alter_tail _ _ _ Hs') as (s & Hs & Hsub).
    apply (Hbelow r s x); auto.
  - intros [?|Hx]%Hcommon; [by left|]. right.
    apply Forall_lookup. intros j s' Hj. rewrite list_lookup_alter in Hj.
    case_decide as Hpj.
    + rewrite Hsp in Hj. simplify_eq/=.
      pose proof (Hxm x Hx) as Hne. rewrite Forall_forall in Hx.
      specialize (Hx sp (list_elem_of_lookup_2 _ _ _ Hsp)).
      destruct sp as [|y t]; simplify_eq/=.
      by apply elem_of_cons in Hx as [?|?].
    + rewrite Forall_forall in Hx. apply Hx. by eapply list_elem_of_lookup_2.
  - intros [?|Hx]; apply Hcommon; [by left|]. right.
    apply Forall_lookup. intros j s Hj.
    rewrite Forall_lookup in Hx.
    destruct (decide (p = j)) as [->|Hpj].
    + apply elem_of_tail, (Hx j). by rewrite list_lookup_alter_eq, Hj.
    + apply (Hx j). by rewrite list_lookup_alter_ne.
Qed.

(** At the end some list has nothing left: the result is the common
    identifiers, in increasing order. *)
Lemma merge_inv_final (common : Id → Prop) (Ss : list (list Id)) (R : list Id) :
  [] ∈ Ss → merge_inv lt common Ss R →
  StronglySorted lt R ∧ ∀ x, x ∈ R ↔ common x.
Proof.
  intros Hnil (_ & HR & _ & Hcommon). split; [done|].
  intros x. rewrite Hcommon. split; [by left|].
  intros [?|Hx]; [done|]. rewrite Forall_forall in Hx.
  specialize (Hx [] Hnil). by apply elem_of_nil in Hx.
Qed.

End LoopFacts.

(** ** [search] *)

Section SearchFacts.
Context {Id : Type} `{EqDecision Id}.
Context (lt : relation Id) `{!RelDecision lt}.
Variable set_iter : gset string → list string.
Hypothesis set_iter_perm : ∀ X, set_iter X ≡ₚ elements X.

Local Abbreviation index := (gmap string (list Id)).
Local Abbreviation zeros := (fmap (M := list) (λ _ : string, 0)).

Lemma search_absent (inv : index) (query w : string) :
  w ∈ parse_text_to_word query → inv !! w = None →
  search lt set_iter inv query = Ret [].
Proof.
  intros Hw Hnone. unfold search.
  replace (existsb _ _) with true; [done|]. symmetry.
  apply existsb_exists. exists w. split.
  - by apply list_elem_of_In, set_iter_elem.
  - by apply bool_decide_eq_true.
Qed.

Lemma search_present (inv : index) (query : string) :
  (∀ w, w ∈ parse_text_to_word query → is_Some (inv !! w)) →
  let ws := set_iter (parse_text_to_word query) in
  Forall (λ w, is_Some (inv !! w)) ws
  ∧ search lt set_iter inv query
    = search_loop lt (search_fuel inv ws) inv ws (zeros ws) [].
Proof.
  intros Hpres ws.
  assert (Forall (λ w, is_Some (inv !! w)) ws) as HF.
  { apply Forall_forall. intros w Hw. by apply Hpres, (set_iter_elem set_iter). }
  split; [done|]. unfold search. fold ws.
  replace (existsb _ ws) with false; [done|]. symmetry.
  apply not_true_is_false. intros (w & Hw & Hnone)%existsb_exists.
  apply list_elem_of_In in Hw. apply bool_decide_eq_true in Hnone.
  rewrite Forall_forall in HF. destruct (HF w Hw) as [l Hl]. congruence.
Qed.

Lemma set_iter_not_nil (X : gset string) : X ≠ ∅ → set_iter X ≠ [].
Proof.
  intros HX Hnil. apply HX. apply set_eq. intros w.
  rewrite <- (set_iter_elem set_iter set_iter_perm), Hnil.
  split; [by intros ?%elem_of_nil | by intros ?%not_elem_of_empty].
Qed.

Lemma remaining_zeros (inv : index) (ws : list string) :
  remaining inv ws (zeros ws) = postings inv <$> ws.
Proof.
  unfold remaining. induction ws as [|w ws IH]; simpl; [done|].
  f_equal. exact IH.
Qed.

Lemma ready_zeros (inv : index) (ws : list string) :
  Forall (λ w, is_Some (inv !! w)) ws → ready inv ws (zeros ws).
Proof. intros HF. split; [done | by rewrite length_fmap]. Qed.

Lemma left_total_zeros (inv : index) (ws : list string) :
  S (left_total inv ws (zeros ws)) = search_fuel inv ws.
Proof.
  unfold left_total, search_fuel. rewrite remaining_zeros.
  by rewrite <- list_fmap_compose.
Qed.

Lemma search_loop_more_fuel (inv : index) (ws : list string) (fuel fuel' : nat)
    (cs : list nat) (R r : list Id) :
  fuel ≤ fuel' →
  search_loop lt fuel inv ws cs R = Ret r →
  search_loop lt fuel' inv ws cs R = Ret r.
Proof.
  revert fuel' cs R. induction fuel as [|fuel IH]; intros fuel' cs R Hle; [done|].
  destruct fuel' as [|fuel']; [lia|]. simpl.
  destruct (loop_body lt inv ws cs R); [|done..].
  apply IH. lia.
Qed.

Lemma StronglySorted_sublist (l1 l2 : list Id) :
  l1 `sublist_of` l2 → StronglySorted lt l2 → StronglySorted lt l1.
Proof.
  induction 1 as [|x l1 l2 Hsub IH|x l1 l2 Hsub IH].
  - done.
  - intros [Hall Hs]%StronglySorted_cons. apply StronglySorted_cons.
    split; [|by apply IH]. rewrite Forall_forall in Hall |- *.
    intros y Hy. apply Hall. by eapply elem_of_sublist.
  - intros [_ Hs]%StronglySorted_cons. by apply IH.
Qed.

Lemma StronglySorted_NoDup `{!Irreflexive lt} (l : list Id) :
  StronglySorted lt l → NoDup l.
Proof.
  induction 1 as [|x l Hs IH Hall]; constructor; [|done].
  intros Hx. rewrite Forall_forall in Hall.
  by apply (irreflexivity lt x), Hall.
Qed.

(** The loop over any index, started at the first iteration: it returns. *)
Lemma search_loop_returns (inv : index) (ws : list string) :
  ws ≠ [] → Forall (λ w, is_Some (inv !! w)) ws →
  ∃ r, search_loop lt (search_fuel inv ws) inv ws (zeros ws) [] = Ret r.
Proof.
  intros Hne HF.
  destruct (search_loop_run lt inv (λ _ _, True) ws Hne) with
    (fuel := search_fuel inv ws) (cs := zeros ws) (R := @nil Id)
    as (r & _ & Hr & _); try done.
  - by apply ready_zeros.
  - fold (left_total inv ws (zeros ws)). rewrite <- left_total_zeros. lia.
  - by exists r.
Qed.

(** The loop over increasing lists returns the common identifiers. *)
Lemma search_loop_sorted `{!StrictOrder lt, !Trichotomy lt}
    (inv : index) (ws : list string) :
  ws ≠ [] → Forall (λ w, is_Some (inv !! w)) ws →
  Forall (λ w, StronglySorted lt (postings inv w)) ws →
  ∃ r, search_loop lt (search_fuel inv ws) inv ws (zeros ws) [] = Ret r
       ∧ StronglySorted lt r
       ∧ ∀ x, x ∈ r ↔ ∀ w, w ∈ ws → x ∈ postings inv w.
Proof.
  intros Hne HF Hsorted.
  set (common := λ x : Id, ∀ w, w ∈ ws → x ∈ postings inv w).
  destruct (search_loop_run lt inv (merge_inv lt common) ws Hne) with
    (fuel := search_fuel inv ws) (cs := zeros ws) (R := @nil Id)
    as (r & Ss & Hr & Hnil & Hinv).
  - intros Ss ids d R. apply merge_inv_all; apply _.
  - intros Ss ids m p R. apply merge_inv_one; apply _.
  - by apply ready_zeros.
  - fold (left_total inv ws (zeros ws)). rewrite <- left_total_zeros. lia.
  - rewrite remaining_zeros. repeat split.
    + by apply Forall_fmap.
    + constructor.
    + by intros r s x ?%elem_of_nil.
    + intros Hx. right. apply Forall_fmap, Forall_forall. intros w Hw. by apply Hx.
    + intros [?%elem_of_nil|Hx]; [done|]. intros w Hw.
      rewrite Forall_fmap, Forall_forall in Hx. exact (Hx w Hw).
  - exists r. split; [done|]. exact (merge_inv_final lt common Ss r Hnil Hinv).
Qed.

(** The loop over a single list copies what is left of it. *)
Lemma search_loop_single (inv : index) (w : string) (l : list Id) :
  inv !! w = Some l →
  search_loop lt (search_fuel inv [w]) inv [w] (zeros [w]) [] = Ret l.
Proof.
  intros Hl.
  destruct (search_loop_run lt inv (λ Ss R, ∃ s, Ss = [s] ∧ R ++ s = l) [w])
    with (fuel := search_fuel inv [w]) (cs := zeros [w]) (R := @nil Id)
    as (r & Ss & Hr & Hnil & (s & -> & Hrs)); try done.
  - intros Ss ids d R Hids _ Hd (s & -> & <-).
    apply heads_all_equal with (d := d) in Hids; [|done].
    apply Forall_cons in Hids as [Hs _]. destruct s as [|y t]; simplify_eq/=.
    exists t. split; [done|]. by rewrite <- (assoc_L (++)).
  - intros Ss ids m p R Hids Hnot _ _ (s & -> & <-).
    destruct Hnot. apply mapM_Some in Hids.
    inversion Hids as [|? d ? ids' _ Hnil]; subst. inversion Hnil; subst.
    exists d. by repeat constructor.
  - apply ready_zeros. repeat constructor. by exists l.
  - fold (left_total inv [w] (zeros [w])). rewrite <- left_total_zeros. lia.
  - rewrite remaining_zeros. simpl. exists l. by rewrite (postings_Some inv w l).
  - apply list_elem_of_singleton in Hnil. subst s.
    by rewrite app_nil_r in Hrs; subst.
Qed.


Lemma build_sorted (docs : list (Id * string)) (w : string) (l : list Id) :
  StronglySorted lt docs.*1 → build set_iter docs !! w = Some l →
  StronglySorted lt l.
Proof.
  intros Hdocs [-> _]%(build_lookup set_iter set_iter_perm).
  eapply StronglySorted_sublist; [apply docs_with_sublist | done].
Qed.

(** [search] over an index whose lists, for the words of the query, are
    increasing. *)
Lemma search_sorted_index `{!StrictOrder lt, !Trichotomy lt}
    (inv : index) (query : string) :
  parse_text_to_word query ≠ ∅ →
  (∀ w, w ∈ parse_text_to_word query →
        ∃ l, inv !! w = Some l ∧ StronglySorted lt l) →
  ∃ r, search lt set_iter inv query = Ret r
       ∧ StronglySorted lt r
       ∧ ∀ x, x ∈ r ↔ in_all inv (parse_text_to_word query) x.
Proof.
  intros Hne Hwords.
  destruct (search_present inv query) as [HF ->].
  { intros w Hw. destruct (Hwords w Hw) as (l & -> & _). by eexists. }
  destruct (search_loop_sorted inv (set_iter (parse_text_to_word query)))
    as (r & Hr & Hsorted & Hmem); [by apply set_iter_not_nil | done | |].
  - apply Forall_forall. intros w Hw%(set_iter_elem set_iter set_iter_perm).
    destruct (Hwords w Hw) as (l & Hl & Hs). by rewrite (postings_Some inv w l).
  - exists r. repeat split; [done..| |].
    + intros Hx w Hw. by apply Hmem, (set_iter_elem set_iter).
    + intros Hx. apply Hmem. intros w Hw%(set_iter_elem set_iter set_iter_perm).
      by apply Hx.
Qed.

(** [search] on a query of one word that is a key copies the list of the
    word. *)
Lemma search_one_word (inv : index) (query w : string) (l : list Id) :
  parse_text_to_word query = {[ w ]} → inv !! w = Some l →
  search lt set_iter inv query = Ret l.
Proof.
  intros Hparse Hl.
  destruct (search_present inv query) as [_ ->].
  { rewrite Hparse. intros w' ->%elem_of_singleton. by eexists. }
  rewrite Hparse, (set_iter_singleton set_iter set_iter_perm).
  by apply search_loop_single.
Qed.

(** *** The claims on [search] *)

(** C1 (amended): on an index built by [process_corpus] calls whose
    identifiers are strictly increasing, and for two terms of the index
    that are the two words of the query made of them with a space in
    between, [search] on that query returns exactly the identifiers that
    are in the postings lists of both, each once; and on any index, a
    query one of whose words is not a key returns the empty result. *)
Theorem search_two_terms_increasing `{!StrictOrder lt, !Trichotomy lt} :
  (∀ (docs : list (Id * string)) (T1 T2 : string) (l1 l2 : list Id),
     StronglySorted lt docs.*1 →
     build set_iter docs !! T1 = Some l1 →
     build set_iter docs !! T2 = Some l2 →
     parse_text_to_word (String.append T1 (String space T2)) = {[ T1; T2 ]} →
     ∃ r, search lt set_iter (build set_iter docs)
            (String.append T1 (String space T2)) = Ret r
          ∧ NoDup r ∧ ∀ x, x ∈ r ↔ x ∈ l1 ∧ x ∈ l2)
  ∧ (∀ (inv : index) (query w : string),
       w ∈ parse_text_to_word query → inv !! w = None →
       search lt set_iter inv query = Ret []).
Proof.
  split; [|apply search_absent]. intros docs T1 T2 l1 l2 Hdocs H1 H2 Hparse.
  destruct (search_sorted_index (build set_iter docs)
              (String.append T1 (String space T2))) as (r & Hr & Hs & Hmem).
  - rewrite Hparse. intros Hempty.
    assert (T1 ∈ (∅ : gset string)) as Hin
      by (rewrite <- Hempty; apply elem_of_union; left; by apply elem_of_singleton).
    by apply not_elem_of_empty in Hin.
  - rewrite Hparse.
    intros w [->%elem_of_singleton| ->%elem_of_singleton]%elem_of_union;
      eexists; split; try done; by eapply build_sorted.
  - exists r. split; [done|]. split; [by apply StronglySorted_NoDup|].
    intros x. rewrite (Hmem x), Hparse. unfold in_all. split.
    + intros Hx. split.
      * rewrite <- (postings_Some _ _ _ H1). apply Hx, elem_of_union. left.
        by apply elem_of_singleton.
      * rewrite <- (postings_Some _ _ _ H2). apply Hx, elem_of_union. right.
        by apply elem_of_singleton.
    + intros [Hx1 Hx2] w [->%elem_of_singleton| ->%elem_of_singleton]%elem_of_union.
      * by rewrite (postings_Some _ _ _ H1).
      * by rewrite (postings_Some _ _ _ H2).
Qed.

(** C2: a query without any word, the empty string among them, does not
    get the empty result: on every index [search] raises [IndexError], in
    the first iteration of its loop. *)
Theorem search_empty_query_raises (inv : index) :
  (∀ query, parse_text_to_word query = ∅ →
            search lt set_iter inv query = Raise IndexError)
  ∧ search lt set_iter inv EmptyString = Raise IndexError.
Proof.
  assert (∀ q, parse_text_to_word q = ∅ →
               search lt set_iter inv q = Raise IndexError) as Hraise.
  { intros q Hq. unfold search. by rewrite Hq, (set_iter_empty set_iter set_iter_perm). }
  split; [done|]. by apply Hraise.
Qed.

(** C3 (amended): when every identifier was added at most once, the term
    [T] is a word of some document and, taken as a query, [T] is its own
    only word, [search T] returns the documents that have [T] as a word,
    each once and no other. *)
Theorem search_single_term (docs : list (Id * string)) (T : string) :
  NoDup docs.*1 →
  (∃ d text, (d, text) ∈ docs ∧ T ∈ parse_text_to_word text) →
  parse_text_to_word T = {[ T ]} →
  ∃ r, search lt set_iter (build set_iter docs) T = Ret r
       ∧ NoDup r
       ∧ ∀ d, d ∈ r ↔ ∃ text, (d, text) ∈ docs ∧ T ∈ parse_text_to_word text.
Proof.
  intros Hnd (d0 & text0 & Hin0 & HT0) Hparse.
  assert (build set_iter docs !! T = Some (docs_with docs T)) as Hl.
  { apply (build_lookup set_iter set_iter_perm). split; [done|].
    intros Hnil. assert (d0 ∈ docs_with docs T) as Hd0
      by (apply docs_with_elem; by exists text0).
    rewrite Hnil in Hd0. by apply elem_of_nil in Hd0. }
  exists (docs_with docs T). split; [|split].
  - by apply (search_one_word _ T T).
  - by apply docs_with_NoDup.
  - intros d. apply docs_with_elem.
Qed.

(** C4: in an iteration with at least one query word, every word a key
    and every cursor in bounds: when the identifiers under the cursors
    are all equal, that identifier is appended to the result and every
    cursor moves by one; otherwise the result is left alone and one
    cursor moves by one, the cursor of an identifier that none of the
    current identifiers is below. *)
Theorem loop_body_advance `{!StrictOrder lt} (inv : index) (ws : list string)
    (cs : list nat) (R ids : list Id) :
  ws ≠ [] → ready inv ws cs → current_ids inv ws cs = Some ids →
  (∀ d, Forall (λ x, x = d) ids →
        loop_body lt inv ws cs R = Continue (S <$> cs) (R ++ [d]))
  ∧ ((¬ ∃ d, Forall (λ x, x = d) ids) →
     ∃ p c m, cs !! p = Some c ∧ ids !! p = Some m
              ∧ (∀ x, x ∈ ids → ¬ lt x m)
              ∧ loop_body lt inv ws cs R = Continue (<[p := c + 1]> cs) R).
Proof.
  intros Hne Hready Hids. unfold current_ids in Hids.
  pose proof (loop_body_spec lt inv ws cs R Hready Hne) as Hbody.
  rewrite Hids in Hbody. destruct Hbody as [Hlen Hbody]. split.
  - intros d Hd.
    destruct Hbody as [(d' & Hd' & ->)|(m & p & c & Hnot & _)].
    + destruct ids as [|x ids]; [by destruct ws|].
      apply Forall_cons in Hd as [-> _]. by apply Forall_cons in Hd' as [-> _].
    + destruct Hnot. by exists d.
  - intros Hnot.
    destruct Hbody as [(d' & Hd' & _)|(m & p & c & _ & Hm & Hp & Hc & ->)].
    + destruct Hnot. by exists d'.
    + exists p, c, m. destruct (py_index_Some _ _ _ Hp) as [Hpm _].
      repeat split; try done. by apply (py_min_least lt).
Qed.

(** An iteration that goes on moves no cursor back, moves at least one
    cursor forward, and leaves fewer identifiers to read. *)
Lemma loop_body_progress (inv : index) (ws : list string) (cs cs' : list nat)
    (R R' : list Id) :
  ws ≠ [] → ready inv ws cs →
  loop_body lt inv ws cs R = Continue cs' R' →
  ready inv ws cs'
  ∧ (∀ k c, cs !! k = Some c → cs' !! k = Some c ∨ cs' !! k = Some (S c))
  ∧ (∃ k c, cs !! k = Some c ∧ cs' !! k = Some (S c))
  ∧ left_total inv ws cs' < left_total inv ws cs.
Proof.
  intros Hne Hready Hbody.
  pose proof (loop_body_spec lt inv ws cs R Hready Hne) as Hspec.
  destruct Hready as [HF Hlen]. unfold left_total.
  destruct (mapM head (remaining inv ws cs)) as [ids|] eqn:Hids; [|congruence].
  assert (0 < length ws) as Hpos by (destruct ws; simpl; [done | lia]).
  destruct Hspec as [Hil [(d & _ & Hc)|(m & p & c & _ & _ & Hp & Hc & Hb)]].
  - rewrite Hc in Hbody. injection Hbody as <- <-.
    split; [split; [done | by rewrite length_fmap]|]. split; [|split].
    + intros k c Hk. right. by rewrite list_lookup_fmap, Hk.
    + destruct (lookup_lt_is_Some_2 cs 0) as [c Hk]; [lia|].
      exists 0, c. by rewrite list_lookup_fmap, Hk.
    + rewrite remaining_advance_all.
      pose proof (left_tail_all _ _ Hids) as Hsum.
      rewrite remaining_length in Hsum by done. lia.
  - rewrite Hb in Hbody. injection Hbody as <- <-.
    assert (p < length cs) as Hpl by (by eapply lookup_lt_Some).
    split; [split; [done | by rewrite length_insert]|]. split; [|split].
    + intros k c' Hk. destruct (decide (p = k)) as [->|Hpk].
      * right. rewrite list_lookup_insert_eq by done.
        rewrite Hc in Hk. injection Hk as ->. f_equal. lia.
      * left. by rewrite list_lookup_insert_ne.
    + exists p, c. split; [done|]. rewrite list_lookup_insert_eq by done.
      f_equal. lia.
    + rewrite (remaining_advance_one inv ws cs p c Hc).
      pose proof (left_tail_one _ _ p Hids) as Hsum.
      destruct (py_index_Some _ _ _ Hp) as [Hpm%lookup_lt_Some _]. lia.
Qed.

(** C5: for a query with at least one word, all its words keys of the
    index, the loop of [search] returns: an iteration that does not return
    moves a cursor forward and none back, so that fewer identifiers are
    left to read, and the lists are finite. *)
Theorem search_terminates (inv : index) (query : string) :
  parse_text_to_word query ≠ ∅ →
  (∀ w, w ∈ parse_text_to_word query → is_Some (inv !! w)) →
  let ws := set_iter (parse_text_to_word query) in
  (∀ cs R cs' R',
     ready inv ws cs → loop_body lt inv ws cs R = Continue cs' R' →
     ready inv ws cs'
     ∧ (∀ k c, cs !! k = Some c → cs' !! k = Some c ∨ cs' !! k = Some (S c))
     ∧ (∃ k c, cs !! k = Some c ∧ cs' !! k = Some (S c))
     ∧ left_total inv ws cs' < left_total inv ws cs)
  ∧ ∃ r, search lt set_iter inv query = Ret r
         ∧ ∀ fuel, search_fuel inv ws ≤ fuel →
             search_loop lt fuel inv ws (zeros ws) [] = Ret r.
Proof.
  intros Hne Hpres ws.
  assert (ws ≠ []) as Hws by (by apply set_iter_not_nil).
  split.
  - intros cs R cs' R'. by apply loop_body_progress.
  - destruct (search_present inv query Hpres) as [HF Hsearch]. fold ws in HF, Hsearch.
    destruct (search_loop_returns inv ws Hws HF) as [r Hr].
    exists r. split; [by rewrite Hsearch|].
    intros fuel Hfuel. by apply (search_loop_more_fuel inv ws (search_fuel inv ws)).
Qed.

(** C10: when the identifiers passed to [process_corpus] are strictly
    increasing from one call to the next (so that each is passed once),
    [search], on a query with at least one word and all its words keys of
    the index, returns exactly the identifiers that are in the postings
    list of every word of the query, in increasing order and each once. *)
Theorem search_increasing_ids `{!StrictOrder lt, !Trichotomy lt}
    (docs : list (Id * string)) (query : string) :
  StronglySorted lt docs.*1 →
  parse_text_to_word query ≠ ∅ →
  (∀ w, w ∈ parse_text_to_word query → is_Some (build set_iter docs !! w)) →
  ∃ r, search lt set_iter (build set_iter docs) query = Ret r
       ∧ StronglySorted lt r
       ∧ NoDup r
       ∧ ∀ x, x ∈ r ↔ in_all (build set_iter docs) (parse_text_to_word query) x.
Proof.
  intros Hdocs Hne Hpres.
  destruct (search_sorted_index (build set_iter docs) query Hne)
    as (r & Hr & Hs & Hmem).
  - intros w Hw. destruct (Hpres w Hw) as [l Hl]. exists l. split; [done|].
    by eapply build_sorted.
  - exists r. repeat split; try done; [by apply StronglySorted_NoDup | |];
      by apply Hmem.
Qed.

End SearchFacts.

(** [search] is total: whatever the index and the query, it returns a
    result or raises, and the loop never runs out of iterations. *)
Section SearchTotal.
Context {Id : Type} `{EqDecision Id}.
Context (lt : relation Id) `{!RelDecision lt}.
Variable set_iter : gset string → list string.
Hypothesis set_iter_perm : ∀ X, set_iter X ≡ₚ elements X.

Lemma search_never_diverges (inv : gmap string (list Id)) (query : string) :
  search lt set_iter inv query ≠ Diverge.
Proof.
  destruct (decide (parse_text_to_word query = ∅)) as [Hempty|Hne].
  { unfold search. by rewrite Hempty, (set_iter_empty set_iter set_iter_perm). }
  destruct (decide (Forall (λ w, is_Some (inv !! w))
                      (set_iter (parse_text_to_word query)))) as [HF|HF].
  - destruct (search_present lt set_iter set_iter_perm inv query) as [_ ->].
    { intros w Hw. rewrite Forall_forall in HF.
      by apply HF, (set_iter_elem set_iter). }
    destruct (search_loop_returns lt inv (set_iter (parse_text_to_word query)))
      as [r ->]; [by apply set_iter_not_nil | done | done].
  - apply not_Forall_Exists in HF; [|apply _].
    apply Exists_exists in HF as (w & Hw & Hnone). simpl in Hnone.
    rewrite (search_absent lt set_iter set_iter_perm inv query w); [done| |].
    + by apply (set_iter_elem set_iter set_iter_perm).
    + destruct (inv !! w) eqn:E; [|done]. destruct Hnone. by eexists.
Qed.

End SearchTotal.

(** ** The result cache *)

Section LruFacts.

(** The list of cached queries of a cache that is used as [search] uses
    it follows [touch]. *)
Lemma touch_NoDup (size : nat) (l : list string) (q : string) :
  NoDup l → NoDup (pylru.touch size l q).
Proof.
  intros Hl. unfold pylru.touch. eapply sublist_NoDup; [|apply sublist_take].
  apply NoDup_cons. split; [|by apply NoDup_filter].
  by intros [? _]%list_elem_of_filter.
Qed.

Lemma touch_length (size : nat) (l : list string) (q : string) :
  length (pylru.touch size l q) ≤ size.
Proof. unfold pylru.touch. rewrite length_take. lia. Qed.

Lemma filter_others (q : string) (l : list string) :
  q ∉ l → filter (λ k, k ≠ q) l = l.
Proof.
  induction l as [|a l IH]; [done|]. intros Hq.
  rewrite filter_cons_True.
  - rewrite IH; [done|]. intros ?. apply Hq. by right.
  - intros ->. apply Hq. by left.
Qed.

(** While fewer than [size] other queries have been answered since [q0]
    was, they are in front of [q0], the latest first. *)
Lemma touch_chain (size : nat) (q0 : string) (qs : list string) :
  ∀ pre rest,
    length pre + length qs < size →
    q0 ∉ qs → NoDup qs → (∀ q, q ∈ qs → q ∉ pre) →
    ∃ rest', foldl (pylru.touch size) (pre ++ q0 :: rest) qs
             = reverse qs ++ pre ++ q0 :: rest'.
Proof.
  induction qs as [|q qs IH]; intros pre rest Hlen Hq0 Hnd Hpre; simpl.
  - by exists rest.
  - apply NoDup_cons in Hnd as [Hq Hnd]. simpl in Hlen.
    assert (q ≠ q0) as Hne by (intros ->; apply Hq0; by left).
    assert (q ∉ pre) as Hqpre by (apply Hpre; by left).
    assert (pylru.touch size (pre ++ q0 :: rest) q
            = (q :: pre) ++ q0 :: take (size - S (length (q :: pre)))
                                     (filter (λ k, k ≠ q) rest)) as ->.
    { unfold pylru.touch. rewrite filter_app, (filter_others q pre Hqpre).
      rewrite filter_cons_True by done.
      change (q :: pre ++ q0 :: ?t) with ((q :: pre) ++ [q0] ++ t).
      rewrite !take_app. rewrite (take_ge (q :: pre)) by (simpl; lia).
      rewrite (take_ge [q0]) by (simpl; lia). simpl.
      do 4 f_equal. lia. }
    destruct (IH (q :: pre) (take (size - S (length (q :: pre)))
                               (filter (λ k, k ≠ q) rest))) as [rest' ->].
    + simpl. lia.
    + intros ?. apply Hq0. by right.
    + done.
    + intros k Hk [->|?]%elem_of_cons; [done|]. apply (Hpre k); [by right | done].
    + exists rest'. by rewrite reverse_cons, <- (assoc_L (++)).
Qed.

(** The query after those pushes [q0] out. *)
Lemma touch_evict (size : nat) (q0 q : string) (pre rest : list string) :
  S (length pre) = size → q ≠ q0 → q ∉ pre →
  pylru.touch size (pre ++ q0 :: rest) q = q :: pre.
Proof.
  intros Hlen Hne Hq. unfold pylru.touch.
  rewrite filter_app, (filter_others q pre Hq).
  change (q :: pre ++ ?t) with ((q :: pre) ++ t).
  rewrite take_app_le by (simpl; lia). apply take_ge. simpl. lia.
Qed.

Lemma touch_first (size : nat) (l : list string) (q : string) :
  0 < size → ∃ rest, pylru.touch size l q = [] ++ q :: rest.
Proof. intros Hs. unfold pylru.touch. destruct size; [lia|]. by eexists. Qed.

(** After [q0] and then [size] other queries, each once, [q0] is not
    cached any more. *)
Lemma touch_evicts_first (size : nat) (l : list string) (q0 : string)
    (qs : list string) :
  0 < size → length qs = size → NoDup (q0 :: qs) →
  q0 ∉ foldl (pylru.touch size) l (q0 :: qs).
Proof.
  intros Hs Hlen [Hq0 Hnd]%NoDup_cons. simpl.
  destruct (touch_first size l q0 Hs) as [rest ->].
  induction qs as [|qN qs _] using rev_ind; [simpl in Hlen; lia|].
  rewrite length_app in Hlen. simpl in Hlen.
  apply NoDup_app in Hnd as (Hnd & Hdisj & _).
  rewrite foldl_app. simpl.
  destruct (touch_chain size q0 qs [] rest) as [rest' Hchain].
  - simpl. lia.
  - intros ?. apply Hq0, elem_of_app. by left.
  - done.
  - intros q _. apply not_elem_of_nil.
  - simpl in Hchain. rewrite Hchain, touch_evict.
    + intros [->|Hin]%elem_of_cons.
      * apply Hq0, elem_of_app. right. by left.
      * apply Hq0, elem_of_app. left. by rewrite elem_of_reverse in Hin.
    + rewrite length_reverse. lia.
    + intros ->. apply Hq0, elem_of_app. right. by left.
    + rewrite elem_of_reverse. intros Hin. apply (Hdisj qN Hin). by left.
Qed.

(** After [q0] and then [size] other queries, each once, the cache holds
    exactly those, the latest first. *)
Lemma touch_fill (size : nat) (l : list string) (q0 : string) (qs : list string) :
  0 < size → length qs = size → NoDup (q0 :: qs) →
  foldl (pylru.touch size) l (q0 :: qs) = reverse qs.
Proof.
  intros Hs Hlen [Hq0 Hnd]%NoDup_cons. simpl.
  destruct (touch_first size l q0 Hs) as [rest ->].
  induction qs as [|qN qs _] using rev_ind; [simpl in Hlen; lia|].
  rewrite length_app in Hlen. simpl in Hlen.
  apply NoDup_app in Hnd as (Hnd & Hdisj & _).
  rewrite foldl_app. simpl.
  destruct (touch_chain size q0 qs [] rest) as [rest' Hchain].
  - simpl. lia.
  - intros ?. apply Hq0, elem_of_app. by left.
  - done.
  - intros q _. apply not_elem_of_nil.
  - simpl in Hchain. rewrite Hchain, touch_evict.
    + by rewrite reverse_app.
    + rewrite length_reverse. lia.
    + intros ->. apply Hq0, elem_of_app. right. by left.
    + rewrite elem_of_reverse. intros Hin. apply (Hdisj qN Hin). by left.
Qed.

End LruFacts.

Section CacheFacts.
Context {Id : Type} `{EqDecision Id}.
Context (lt : relation Id) `{!RelDecision lt}.
Variable set_iter : gset string → list string.

Local Abbreviation index := (gmap string (list Id)).

Lemma without_keys {V : Type} (q : string) (l : list (string * V)) :
  (pylru.without q l).*1 = filter (λ k, k ≠ q) l.*1.
Proof.
  unfold pylru.without. induction l as [|[k v] l IH]; [done|].
  destruct (decide (k = q)) as [->|Hne].
  - rewrite filter_cons_False by (simpl; by intros ?).
    rewrite fmap_cons. simpl. rewrite filter_cons_False by (by intros ?). done.
  - rewrite filter_cons_True by done. rewrite !fmap_cons. simpl.
    rewrite filter_cons_True by done. by rewrite IH.
Qed.

Lemma without_absent {V : Type} (q : string) (l : list (string * V)) :
  q ∉ l.*1 → pylru.without q l = l.
Proof.
  unfold pylru.without. induction l as [|[k v] l IH]; [done|]. intros Hq.
  rewrite fmap_cons in Hq. rewrite filter_cons_True.
  - rewrite IH; [done|]. intros ?. apply Hq. by right.
  - simpl. intros ->. apply Hq. by left.
Qed.

Lemma elem_of_without {V : Type} (q : string) (l : list (string * V)) kv :
  kv ∈ pylru.without q l → kv ∈ l.
Proof. unfold pylru.without. by intros [_ ?]%list_elem_of_filter. Qed.

(** A cached key: [get] gives the value and moves the entry first. *)
Lemma get_cached {V : Type} (c : lrucache V) (q : string) :
  length (lru_entries c) ≤ lru_size c →
  LRUCache.has q c = true →
  ∃ r, (q, r) ∈ lru_entries c
       ∧ LRUCache.get q c
         = Some (r, {| lru_size := lru_size c;
                       lru_entries := take (lru_size c)
                         ((q, r) :: pylru.without q (lru_entries c)) |}).
Proof.
  intros Hlen Hhas. unfold LRUCache.has, pylru.contains in Hhas.
  apply bool_decide_eq_true, list_elem_of_fmap in Hhas as ([k r] & Hk & Hin).
  simpl in Hk. subst k.
  destruct (list_find_elem_of (λ kv : string * V, kv.1 = q) (lru_entries c) (q, r))
    as [[i [k r']] Hfind]; [done..|].
  pose proof Hfind as (Hi & Hk & _)%list_find_Some. simpl in Hk. subst k.
  exists r'. split; [by eapply list_elem_of_lookup_2|].
  unfold LRUCache.get, pylru.getitem. rewrite Hfind. simpl. do 3 f_equal.
  symmetry. apply take_ge. simpl.
  pose proof (length_filter_lt (λ kv : string * V, kv.1 ≠ q) (lru_entries c) (q, r) Hin)
    as Hlt.
  unfold pylru.without. simpl in Hlt. specialize (Hlt ltac:(tauto)). lia.
Qed.

Lemma removelast_take {V : Type} (l : list V) :
  removelast l = take (length l - 1) l.
Proof.
  induction l as [|x l IH]; [done|]. destruct l as [|y l]; [done|].
  change (removelast (x :: y :: l)) with (x :: removelast (y :: l)).
  rewrite IH. simpl. by rewrite Nat.sub_0_r.
Qed.

(** A key that is not cached: [set] puts the entry first and drops the
    last entry of a full cache. *)
Lemma set_not_cached {V : Type} (c : lrucache V) (q : string) (r : V) :
  0 < lru_size c → length (lru_entries c) ≤ lru_size c →
  LRUCache.has q c = false →
  LRUCache.set q r c
  = {| lru_size := lru_size c;
       lru_entries := take (lru_size c)
         ((q, r) :: pylru.without q (lru_entries c)) |}.
Proof.
  intros Hpos Hlen Hhas. unfold LRUCache.set, pylru.setitem.
  unfold LRUCache.has in Hhas. rewrite Hhas.
  apply bool_decide_eq_false in Hhas. rewrite (without_absent q _ Hhas).
  destruct (lru_size c) as [|n] eqn:Hn; [lia|].
  case_decide as Hfull; f_equal; simpl; f_equal.
  - symmetry. apply take_ge. lia.
  - rewrite removelast_take. f_equal. lia.
Qed.


Lemma keys_touch (e e' : cached_engine Id) (size : nat) (q : string) (r : ref) :
  lru_entries (cache e')
  = take size ((q, r) :: pylru.without q (lru_entries (cache e))) →
  WithCache.keys e' = pylru.touch size (WithCache.keys e) q.
Proof.
  intros He. unfold WithCache.keys, pylru.touch.
  by rewrite He, fmap_take, fmap_cons, without_keys.
Qed.

(** One call of the cached [search] on an engine in a good state. *)
Lemma cached_search_step (size : nat) (inv : index) (e : cached_engine Id)
    (q : string) :
  0 < size → WithCache.cache_ok lt set_iter size inv e →
  match search lt set_iter inv q with
  | Ret l =>
      ∃ r e', WithCache.search lt set_iter e q = (Ret r, e')
              ∧ WithCache.cache_ok lt set_iter size inv e'
              ∧ heap e' !! r = Some l
              ∧ WithCache.keys e' = pylru.touch size (WithCache.keys e) q
              ∧ (LRUCache.has q (cache e) = false →
                 r = length (heap e) ∧ heap e' = heap e ++ [l])
  | Raise ex =>
      LRUCache.has q (cache e) = false
      ∧ WithCache.search lt set_iter e q = (Raise ex, e)
  | Diverge =>
      LRUCache.has q (cache e) = false
      ∧ WithCache.search lt set_iter e q = (Diverge, e)
  end.
Proof.
  intros Hpos (Hinv & Hsize & Hlen & Hnd & Hvalid).
  assert (∀ e' r l,
    inverted_index e' = inv → lru_size (cache e') = size →
    lru_entries (cache e')
    = take size ((q, r) :: pylru.without q (lru_entries (cache e))) →
    heap e `prefix_of` heap e' → heap e' !! r = Some l →
    search lt set_iter inv q = Ret l →
    WithCache.cache_ok lt set_iter size inv e'
    ∧ heap e' !! r = Some l
    ∧ WithCache.keys e' = pylru.touch size (WithCache.keys e) q) as Hok.
  { intros e' r l Hi Hs He Hpre Hr Hq.
    pose proof (keys_touch e e' size q r He) as Hkeys.
    split; [|done]. repeat split; try done.
    - rewrite He, length_take. lia.
    - rewrite Hkeys. by apply touch_NoDup.
    - intros q' r' Hin. rewrite He in Hin.
      pose proof (elem_of_sublist _ _ _ Hin (sublist_take _ _)) as Hin'.
      apply elem_of_cons in Hin' as [[= -> ->]|Hin']; [by exists l|].
      apply elem_of_without in Hin'.
      destruct (Hvalid q' r' Hin') as (l' & Hl' & Hq'). exists l'.
      split; [by eapply prefix_lookup_Some | done]. }
  destruct (LRUCache.has q (cache e)) eqn:Hhas.
  - destruct (get_cached (cache e) q) as (r & Hin & Hget); [lia | done |].
    destruct (Hvalid q r Hin) as (l & Hl & Hq). rewrite Hq.
    eexists r, _. unfold WithCache.search. rewrite Hhas, Hget.
    split; [done|]. rewrite Hsize.
    destruct (Hok {| inverted_index := inverted_index e;
                     cache := {| lru_size := size;
                                 lru_entries := take size ((q, r) ::
                                   pylru.without q (lru_entries (cache e))) |};
                     heap := heap e |} r l) as (? & ? & ?); try done.
  - unfold WithCache.search. rewrite Hhas, Hinv.
    destruct (search lt set_iter inv q) as [l| |] eqn:Hq; [|done..].
    eexists _, _. split; [done|].
    rewrite (set_not_cached (V := ref) (cache e) q) by (done || lia). rewrite Hsize.
    destruct (Hok {| inverted_index := inv;
                     cache := {| lru_size := size;
                                 lru_entries := take size ((q, length (heap e)) ::
                                   pylru.without q (lru_entries (cache e))) |};
                     heap := heap e ++ [l] |} (length (heap e)) l)
      as (? & ? & ?); try done.
    + by apply prefix_app_r.
    + simpl. by rewrite lookup_app_r, Nat.sub_diag.
Qed.

Lemma init_sized_ok (size : nat) (inv : index) :
  WithCache.cache_ok lt set_iter size inv (WithCache.init_sized size inv).
Proof.
  repeat split; simpl; try done; [lia | constructor |].
  by intros q r ?%elem_of_nil.
Qed.

(** A sequence of calls keeps the state good and answers every query as
    [search] without the cache does. *)
Lemma run_ok (size : nat) (inv : index) (queries : list string) :
  0 < size → ∀ e,
  WithCache.cache_ok lt set_iter size inv e →
  WithCache.cache_ok lt set_iter size inv (WithCache.run lt set_iter e queries).2
  ∧ (WithCache.run lt set_iter e queries).1 = search lt set_iter inv <$> queries.
Proof.
  intros Hpos. induction queries as [|q queries IH]; intros e He; [done|].
  pose proof (cached_search_step size inv e q Hpos He) as Hstep.
  cbn [WithCache.run].
  destruct (search lt set_iter inv q) as [l|ex|] eqn:Hq.
  - destruct Hstep as (r & e' & -> & He' & Hr & _).
    destruct (IH e' He') as [Hok Hout].
    destruct (WithCache.run lt set_iter e' queries) as [os e2]. simpl in *.
    split; [done|]. by rewrite Hr, Hout, Hq.
  - destruct Hstep as [_ ->]. destruct (IH e He) as [Hok Hout].
    destruct (WithCache.run lt set_iter e queries) as [os e2]. simpl in *.
    split; [done|]. by rewrite Hout, Hq.
  - destruct Hstep as [_ ->]. destruct (IH e He) as [Hok Hout].
    destruct (WithCache.run lt set_iter e queries) as [os e2]. simpl in *.
    split; [done|]. by rewrite Hout, Hq.
Qed.

Lemma run_app (e : cached_engine Id) (qs1 qs2 : list string) :
  (WithCache.run lt set_iter e (qs1 ++ qs2)).2
  = (WithCache.run lt set_iter (WithCache.run lt set_iter e qs1).2 qs2).2.
Proof.
  revert e. induction qs1 as [|q qs1 IH]; intros e; [done|].
  cbn [app WithCache.run].
  destruct (WithCache.search lt set_iter e q) as [o e1].
  specialize (IH e1).
  destruct (WithCache.run lt set_iter e1 (qs1 ++ qs2)) as [os e2].
  destruct (WithCache.run lt set_iter e1 qs1) as [os' e2']. done.
Qed.

(** Over queries that are answered, the cached queries follow [touch]. *)
Lemma run_keys (size : nat) (inv : index) (queries : list string) :
  0 < size → ∀ e,
  WithCache.cache_ok lt set_iter size inv e →
  Forall (λ q, ∃ l, search lt set_iter inv q = Ret l) queries →
  WithCache.keys (WithCache.run lt set_iter e queries).2
  = foldl (pylru.touch size) (WithCache.keys e) queries.
Proof.
  intros Hpos. induction queries as [|q queries IH]; intros e He HF; [done|].
  apply Forall_cons in HF as [[l Hq] HF].
  pose proof (cached_search_step size inv e q Hpos He) as Hstep.
  rewrite Hq in Hstep. destruct Hstep as (r & e' & Hs & He' & _ & Hkeys & _).
  cbn [WithCache.run foldl]. rewrite Hs. specialize (IH e' He' HF).
  destruct (WithCache.run lt set_iter e' queries) as [os e2]. simpl in *.
  by rewrite IH, Hkeys.
Qed.


(** A call that returns leaves its query first in the cache, with the list
    object it returned. *)
Lemma cached_search_first (e e1 : cached_engine Id) (q : string) (r : ref) :
  WithCache.search lt set_iter e q = (Ret r, e1) →
  ∃ rest, lru_entries (cache e1) = (q, r) :: rest.
Proof.
  unfold WithCache.search.
  destruct (LRUCache.has q (cache e)) eqn:Hhas.
  - unfold LRUCache.get, pylru.getitem.
    destruct (list_find _ _) as [[i [k v]]|] eqn:Hfind; [|done].
    apply list_find_Some in Hfind as (_ & Hk & _). simpl in *. subst k.
    intros [= <- <-]. by eexists.
  - destruct (search lt set_iter (inverted_index e) q); [|done..].
    intros [= <- <-]. cbn [cache]. unfold LRUCache.set, pylru.setitem.
    unfold LRUCache.has in Hhas. rewrite Hhas. case_decide; by eexists.
Qed.

(** A hit returns the list object that is cached, and makes no new one. *)
Lemma cached_search_hit (size : nat) (inv : index) (e : cached_engine Id)
    (q : string) :
  WithCache.cache_ok lt set_iter size inv e →
  LRUCache.has q (cache e) = true →
  ∃ r l e', (q, r) ∈ lru_entries (cache e)
            ∧ WithCache.search lt set_iter e q = (Ret r, e')
            ∧ heap e' = heap e
            ∧ heap e !! r = Some l
            ∧ search lt set_iter inv q = Ret l.
Proof.
  intros (Hinv & Hsize & Hlen & Hnd & Hvalid) Hhas.
  destruct (get_cached (cache e) q) as (r & Hin & Hget); [lia | done |].
  destruct (Hvalid q r Hin) as (l & Hl & Hq).
  exists r, l. eexists. unfold WithCache.search. rewrite Hhas, Hget.
  by repeat split.
Qed.

(** A call that returns brings no entry into the cache but that of its
    query. *)
Lemma cached_search_entries (e e1 : cached_engine Id) (q : string) (r : ref)
    (kv : string * ref) :
  WithCache.search lt set_iter e q = (Ret r, e1) →
  kv ∈ lru_entries (cache e1) → kv.1 = q ∨ kv ∈ lru_entries (cache e).
Proof.
  unfold WithCache.search.
  destruct (LRUCache.has q (cache e)) eqn:Hhas.
  - unfold LRUCache.get, pylru.getitem.
    destruct (list_find _ _) as [[i [k v]]|] eqn:Hfind; [|done].
    apply list_find_Some in Hfind as (_ & Hk & _). simpl in Hk. subst k.
    intros [= <- <-]. cbn [cache lru_entries].
    intros [->|Hin%elem_of_without]%elem_of_cons; [by left | by right].
  - destruct (search lt set_iter (inverted_index e) q); [|done..].
    intros [= <- <-]. cbn [cache]. unfold LRUCache.set, pylru.setitem.
    unfold LRUCache.has in Hhas. rewrite Hhas.
    case_decide; cbn [lru_entries];
      (intros [->|Hin]%elem_of_cons; [by left | right]); [done|].
    rewrite removelast_take in Hin.
    by eapply elem_of_sublist; [|apply sublist_take].
Qed.

(** While other queries are answered, the cache has no other list object
    for [q0] than the one it has. *)
Lemma run_entry_stable (size : nat) (inv : index) (q0 : string) (r0 : ref)
    (qs : list string) :
  0 < size → q0 ∉ qs →
  Forall (λ q, ∃ l, search lt set_iter inv q = Ret l) qs →
  ∀ e, WithCache.cache_ok lt set_iter size inv e →
  (∀ r, (q0, r) ∈ lru_entries (cache e) → r = r0) →
  ∀ r, (q0, r) ∈ lru_entries (cache (WithCache.run lt set_iter e qs).2) → r = r0.
Proof.
  intros Hpos. induction qs as [|q qs IH]; intros Hq0 HF e He Hr0; [done|].
  apply Forall_cons in HF as [[l Hq] HF].
  pose proof (cached_search_step size inv e q Hpos He) as Hstep.
  rewrite Hq in Hstep. destruct Hstep as (r & e' & Hs & He' & _).
  cbn [WithCache.run]. rewrite Hs.
  assert (q0 ∉ qs) as Hq0' by (intros ?; apply Hq0; by right).
  specialize (IH Hq0' HF e' He').
  destruct (WithCache.run lt set_iter e' qs) as [os e2]. simpl in *.
  apply IH. intros r' Hin.
  destruct (cached_search_entries e e' q r (q0, r') Hs Hin) as [Heq|Hin'].
  - simpl in Heq. subst q. destruct Hq0. by left.
  - by apply Hr0.
Qed.

(** *** The claims on the cache *)

(** C6: on any index and for any sequence of queries, every call of the
    cached [search] gives the caller what [search] without the cache
    gives for the same query on the same index, an exception included. *)
Theorem cache_transparent (inv : index) (queries : list string) :
  (WithCache.run lt set_iter (WithCache.init inv) queries).1
  = search lt set_iter inv <$> queries.
Proof.
  apply (run_ok LRUCache.default_size inv queries).
  - unfold LRUCache.default_size. lia.
  - apply init_sized_ok.
Qed.

(** C7: a cache made for [size] entries, 2 for the engine as it is
    constructed, never holds more, and a call that raises leaves it as it
    is.  A query [q0] that is answered is cached with the list object that
    was returned; while fewer than [size] further queries, all different
    and each answered, have followed, [q0] is still cached, and a call for
    it returns that same list object and makes no new one; once [size] of
    them have followed, the cache holds exactly those, [q0] is not cached
    any more, and the next call for [q0] computes its result again, in a
    new list object, and returns it. *)
Theorem cache_capacity_eviction (size : nat) (inv : index) :
  0 < size →
  (∀ queries,
     let e := (WithCache.run lt set_iter (WithCache.init_sized size inv) queries).2 in
     lru_size (cache e) = size ∧ length (lru_entries (cache e)) ≤ size)
  ∧ lru_size (cache (WithCache.init inv)) = 2
  ∧ (∀ queries q ex,
       search lt set_iter inv q = Raise ex →
       let e := (WithCache.run lt set_iter (WithCache.init_sized size inv) queries).2 in
       WithCache.search lt set_iter e q = (Raise ex, e))
  ∧ (∀ before q0 qs,
       NoDup (q0 :: qs) →
       Forall (λ q, ∃ l, search lt set_iter inv q = Ret l) (q0 :: qs) →
       let e0 := (WithCache.run lt set_iter (WithCache.init_sized size inv)
                    (before ++ [q0])).2 in
       let e := (WithCache.run lt set_iter (WithCache.init_sized size inv)
                   (before ++ q0 :: qs)).2 in
       ∃ r0 l0,
         search lt set_iter inv q0 = Ret l0
         ∧ LRUCache.has q0 (cache e0) = true
         ∧ (∃ rest, lru_entries (cache e0) = (q0, r0) :: rest)
         ∧ heap e0 !! r0 = Some l0
         ∧ (length qs < size →
              LRUCache.has q0 (cache e) = true
              ∧ heap e !! r0 = Some l0
              ∧ ∃ e', WithCache.search lt set_iter e q0 = (Ret r0, e')
                      ∧ heap e' = heap e)
         ∧ (length qs = size →
              WithCache.keys e = reverse qs
              ∧ LRUCache.has q0 (cache e) = false
              ∧ ∃ e', WithCache.search lt set_iter e q0 = (Ret (length (heap e)), e')
                      ∧ heap e' = heap e ++ [l0])).
Proof.
  intros Hpos. split; [|split; [done|split]].
  - intros queries e.
    destruct (run_ok size inv queries Hpos (WithCache.init_sized size inv))
      as [(_ & Hs & Hl & _) _]; [apply init_sized_ok | done].
  - intros queries q ex Hq e.
    destruct (run_ok size inv queries Hpos (WithCache.init_sized size inv))
      as [Hok _]; [apply init_sized_ok|]. fold e in Hok.
    pose proof (cached_search_step size inv e q Hpos Hok) as Hstep.
    rewrite Hq in Hstep. by destruct Hstep as [_ ->].
  - intros before q0 qs Hnd HF e0 e.
    pose proof Hnd as [Hq0 Hndqs]%NoDup_cons.
    pose proof HF as [[l0 Hl0] HFqs]%Forall_cons.
    set (eb := (WithCache.run lt set_iter (WithCache.init_sized size inv) before).2).
    destruct (run_ok size inv before Hpos (WithCache.init_sized size inv))
      as [Hokb _]; [apply init_sized_ok|]. fold eb in Hokb.
    pose proof (cached_search_step size inv eb q0 Hpos Hokb) as Hstep.
    rewrite Hl0 in Hstep. destruct Hstep as (r0 & e0' & Hs0 & Hok0 & Hr0 & Hk0 & _).
    assert (e0 = e0') as He0.
    { unfold e0. rewrite run_app. fold eb. cbn [WithCache.run]. by rewrite Hs0. }
    assert (e = (WithCache.run lt set_iter e0 qs).2) as He.
    { unfold e, e0. rewrite <- run_app. by rewrite <- (assoc_L (++)). }
    rewrite <- He0 in Hs0, Hok0, Hr0, Hk0. clearbody e0. clear He0 e0'.
    destruct (cached_search_first eb e0 q0 r0 Hs0) as [rest Hfirst].
    destruct (run_ok size inv qs Hpos e0 Hok0) as [Hok _].
    pose proof (run_keys size inv qs Hpos e0 Hok0 HFqs) as Hkeys.
    rewrite <- He in Hok, Hkeys.
    assert (WithCache.keys e0 = [] ++ q0 :: rest.*1) as Hkeys0
      by (unfold WithCache.keys; by rewrite Hfirst).
    assert (∀ r, (q0, r) ∈ lru_entries (cache e0) → r = r0) as Honly.
    { intros r Hin. destruct Hok0 as (_ & _ & _ & Hnd0 & _).
      rewrite Hkeys0 in Hnd0. simpl in Hnd0. apply NoDup_cons in Hnd0 as [Hnot _].
      rewrite Hfirst in Hin. apply elem_of_cons in Hin as [[= ->]|Hin]; [done|].
      destruct Hnot. apply list_elem_of_fmap. by exists (q0, r). }
    exists r0, l0. split; [done|]. split.
    { apply bool_decide_eq_true. rewrite Hfirst, fmap_cons. by left. }
    split; [by exists rest|]. split; [done|]. split.
    + intros Hlt.
      destruct (touch_chain size q0 qs [] rest.*1) as [rest' Hchain];
        [simpl; lia | done | done | intros q _; apply not_elem_of_nil |].
      rewrite <- Hkeys0, <- Hkeys in Hchain.
      assert (LRUCache.has q0 (cache e) = true) as Hhas.
      { apply bool_decide_eq_true. fold (WithCache.keys e). rewrite Hchain.
        apply elem_of_app. right. by left. }
      destruct (cached_search_hit size inv e q0 Hok Hhas)
        as (r & l & e' & Hin & Hs & Hheap & Hr & Hl).
      assert (r = r0) as ->.
      { apply (run_entry_stable size inv q0 r0 qs Hpos Hq0 HFqs e0 Hok0 Honly).
        by rewrite <- He. }
      assert (l = l0) as -> by congruence.
      split; [done|]. split; [done|]. by exists e'.
    + intros Heq.
      assert (WithCache.keys e = reverse qs) as Hfill.
      { rewrite Hkeys, Hkeys0. simpl.
        rewrite <- (touch_fill size (q0 :: rest.*1) q0 qs Hpos Heq Hnd). simpl.
        f_equal. unfold pylru.touch. rewrite filter_cons_False by (by intros ?).
        apply NoDup_cons in Hnd as _.
        destruct Hok0 as (_ & _ & Hlen0 & Hnd0 & _). rewrite Hkeys0 in Hnd0.
        simpl in Hnd0. apply NoDup_cons in Hnd0 as [Hnot _].
        rewrite (filter_others q0 rest.*1 Hnot).
        symmetry. apply take_ge. rewrite Hfirst in Hlen0. simpl in Hlen0.
        cbn [length]. rewrite length_fmap. lia. }
      assert (LRUCache.has q0 (cache e) = false) as Hhas.
      { apply bool_decide_eq_false. fold (WithCache.keys e). rewrite Hfill.
        by rewrite elem_of_reverse. }
      split; [done|]. split; [done|].
      pose proof (cached_search_step size inv e q0 Hpos Hok) as Hstep.
      rewrite Hl0 in Hstep. destruct Hstep as (r & e' & Hs & _ & _ & _ & Hnew).
      destruct (Hnew Hhas) as [-> Hheap]. by exists e'.
Qed.

(** C9 (amended): the cache keeps the list object itself: once a call for
    [q] has returned the object [r], the next call for [q] returns [r]
    again, with whatever the caller has made of its contents in between:
    the original result only when the caller left it alone. *)
Theorem cache_by_reference (e e1 : cached_engine Id) (q : string) (r : ref)
    (l : list Id) (f : list Id → list Id) :
  WithCache.search lt set_iter e q = (Ret r, e1) →
  WithCache.contents e1 (Ret r) = Ret l →
  ∃ e3, WithCache.search lt set_iter (WithCache.mutate r f e1) q = (Ret r, e3)
        ∧ WithCache.contents e3 (Ret r) = Ret (f l).
Proof.
  intros [rest Hfirst]%cached_search_first Hl.
  unfold WithCache.contents in Hl.
  destruct (heap e1 !! r) as [l'|] eqn:Hr; [|done]. injection Hl as ->.
  unfold WithCache.search, WithCache.mutate. simpl.
  unfold LRUCache.has, pylru.contains, LRUCache.get, pylru.getitem.
  rewrite Hfirst. rewrite bool_decide_eq_true_2 by (rewrite fmap_cons; by left).
  cbn [list_find]. rewrite decide_True by done. simpl.
  eexists. split; [done|]. cbn [WithCache.contents heap].
  by rewrite list_lookup_alter_eq, Hr.
Qed.

End CacheFacts.

(** ** The claims at concrete inputs *)

Section Concrete.
Local Open Scope string_scope.

Lemma nat_lt_trichotomy : Trichotomy Nat.lt.
Proof. intros x y. unfold Nat.lt. lia. Qed.

Lemma elements_perm (X : gset string) : elements X ≡ₚ elements X.
Proof. reflexivity. Qed.

Lemma elements_rev_perm (X : gset string) : elements_rev X ≡ₚ elements X.
Proof. unfold elements_rev. apply reverse_Permutation. Qed.

Lemma nat_docs_increasing : StronglySorted Nat.lt nat_docs.*1.
Proof. repeat constructor. Qed.

Lemma parse_cat_sat : parse_text_to_word "cat sat" = {[ "cat"; "sat" ]}.
Proof. unfold parse_text_to_word. simpl. by rewrite (right_id_L ∅ (∪)). Qed.

Lemma parse_cat_sat_not_empty : parse_text_to_word "cat sat" ≠ ∅.
Proof.
  rewrite parse_cat_sat. intros Hempty.
  assert ("cat" ∈ (∅ : gset string)) as Hin
    by (rewrite <- Hempty; apply elem_of_union; left; by apply elem_of_singleton).
  by apply not_elem_of_empty in Hin.
Qed.

Lemma parse_cat_sat_present (w : string) :
  w ∈ parse_text_to_word "cat sat" → is_Some (nat_build nat_docs !! w).
Proof.
  rewrite parse_cat_sat.
  intros [->%elem_of_singleton| ->%elem_of_singleton]%elem_of_union;
    vm_compute; by eexists.
Qed.

(** C1, as stated, fails when the identifiers are not added in increasing
    order: document 2 with the word [a], then document 1 with the words
    [a] and [b].  Document 1 is in both postings lists, and [search]
    returns nothing, in whichever order the two query words are taken. *)
Lemma search_two_terms_unsorted :
  let inv := nat_build [(2, "a"); (1, "a b")] in
  inv !! "a" = Some [2; 1] ∧ inv !! "b" = Some [1]
  ∧ search Nat.lt elements inv "a b" = Ret []
  ∧ search Nat.lt elements_rev inv "a b" = Ret []
  ∧ ¬ (∀ x : nat, x ∈ ([] : list nat) ↔ x ∈ [2; 1] ∧ x ∈ [1]).
Proof.
  repeat split; try (vm_compute; reflexivity).
  intros Hall. destruct (Hall 1) as [_ Hin].
  apply elem_of_nil in Hin; [done|]. split; [by right; left | by left].
Qed.

(** C1 fails as well for terms that are not the words of the query made
    of them: the document [Istanbul x], with U+0130 first, has the words
    i, U+0307, stanbul and [x], both keys with the list of document 1; the
    query made of the two has the words [i], [stanbul] and [x], the first
    two are no keys, and [search] returns nothing. *)
Lemma search_two_terms_fails :
  (let inv := nat_build [(2, "a"); (1, "a b")] in
   inv !! "a" = Some [2; 1] ∧ inv !! "b" = Some [1]
   ∧ search Nat.lt elements inv "a b" = Ret []
   ∧ search Nat.lt elements_rev inv "a b" = Ret []
   ∧ ¬ (∀ x : nat, x ∈ ([] : list nat) ↔ x ∈ [2; 1] ∧ x ∈ [1]))
  ∧ (let x := Wide.of_string "x" in
     let sp := Wide.of_string " " in
     let inv := wide_build elements [(1, istanbul_text ++ sp ++ x)%list] in
     inv !! istanbul_word = Some [1] ∧ inv !! x = Some [1]
     ∧ Wide.parse_text_to_word (istanbul_word ++ sp ++ x)%list
       = {[ Wide.of_string "i"; Wide.of_string "stanbul"; x ]}
     ∧ inv !! Wide.of_string "i" = None
     ∧ wide_search elements inv (istanbul_word ++ sp ++ x)%list = Ret []
     ∧ wide_search (reverse ∘ elements) inv (istanbul_word ++ sp ++ x)%list = Ret []
     ∧ ¬ (∀ d : nat, d ∈ ([] : list nat) ↔ d ∈ [1] ∧ d ∈ [1])).
Proof.
  split; [exact search_two_terms_unsorted|].
  repeat split; try (vm_compute; reflexivity).
  intros Hall. destruct (Hall 1) as [_ Hin].
  apply elem_of_nil in Hin; [done|]. split; by left.
Qed.

Lemma search_two_terms_increasing_witness :
  StronglySorted Nat.lt nat_docs.*1
  ∧ nat_build nat_docs !! "cat" = Some [1; 3]
  ∧ nat_build nat_docs !! "sat" = Some [1; 2]
  ∧ parse_text_to_word "cat sat" = {[ "cat"; "sat" ]}
  ∧ (∃ r, nat_search (nat_build nat_docs) "cat sat" = Ret r
          ∧ NoDup r ∧ ∀ x, x ∈ r ↔ x ∈ [1; 3] ∧ x ∈ [1; 2])
  ∧ nat_search (nat_build nat_docs) "cat fish" = Ret [].
Proof.
  destruct (search_two_terms_increasing Nat.lt elements elements_perm
              (Trichotomy0 := nat_lt_trichotomy)) as [Hboth Habsent].
  split; [apply nat_docs_increasing|].
  split; [vm_compute; reflexivity|]. split; [vm_compute; reflexivity|].
  split; [apply parse_cat_sat|]. split.
  - apply (Hboth nat_docs "cat" "sat" [1; 3] [1; 2]).
    + apply nat_docs_increasing.
    + vm_compute; reflexivity.
    + vm_compute; reflexivity.
    + apply parse_cat_sat.
  - apply (Habsent (nat_build nat_docs) "cat fish" "fish").
    + apply parse_text_to_word_elem. vm_compute. right. left.
    + vm_compute; reflexivity.
Defined.

Lemma search_empty_query_raises_witness :
  parse_text_to_word " ?! " = ∅
  ∧ nat_search (nat_build nat_docs) " ?! " = Raise IndexError
  ∧ nat_search (nat_build nat_docs) "" = Raise IndexError.
Proof.
  destruct (search_empty_query_raises Nat.lt elements elements_perm
              (nat_build nat_docs)) as [Hany Hempty].
  split; [reflexivity|]. split; [|exact Hempty].
  apply Hany. reflexivity.
Defined.

(** C3, as stated, fails for a term that is not its own only word: the
    document [Istanbul], with U+0130 first, has the one word i, U+0307,
    stanbul, a key of the index with the list of document 1.  Taken as a
    query, it has the words [i] and [stanbul], which are no keys, and
    [search] returns nothing. *)
Lemma search_term_retokenized :
  let inv := wide_build elements [(1, istanbul_text)] in
  Wide.parse_text_to_word istanbul_text = {[ istanbul_word ]}
  ∧ inv !! istanbul_word = Some [1]
  ∧ Wide.parse_text_to_word istanbul_word
    = {[ Wide.of_string "i"; Wide.of_string "stanbul" ]}
  ∧ inv !! Wide.of_string "i" = None
  ∧ inv !! Wide.of_string "stanbul" = None
  ∧ wide_search elements inv istanbul_word = Ret []
  ∧ wide_search (reverse ∘ elements) inv istanbul_word = Ret []
  ∧ wide_search elements inv istanbul_text = Ret [1]
  ∧ ¬ (∀ d : nat, d ∈ ([] : list nat) ↔ d ∈ [1]).
Proof.
  repeat split; try (vm_compute; reflexivity).
  intros Hall. destruct (Hall 1) as [_ Hin].
  apply elem_of_nil in Hin; [done | by left].
Qed.

Lemma parse_cat : parse_text_to_word "cat" = {[ "cat" ]}.
Proof. unfold parse_text_to_word. simpl. by rewrite (right_id_L ∅ (∪)). Qed.

Lemma search_single_term_witness :
  NoDup nat_docs.*1
  ∧ (∃ d text, (d, text) ∈ nat_docs ∧ "cat" ∈ parse_text_to_word text)
  ∧ parse_text_to_word "cat" = {[ "cat" ]}
  ∧ ∃ r, nat_search (nat_build nat_docs) "cat" = Ret r
         ∧ NoDup r
         ∧ ∀ d, d ∈ r ↔ ∃ text, (d, text) ∈ nat_docs ∧ "cat" ∈ parse_text_to_word text.
Proof.
  assert (NoDup nat_docs.*1) as Hnd
    by (apply (StronglySorted_NoDup Nat.lt), nat_docs_increasing).
  assert (∃ d text, (d, text) ∈ nat_docs ∧ "cat" ∈ parse_text_to_word text) as Hcat.
  { exists 1, "the cat sat". split; [by left|].
    apply parse_text_to_word_elem. vm_compute. right. left. }
  split; [done|]. split; [done|]. split; [apply parse_cat|].
  apply (search_single_term Nat.lt elements elements_perm nat_docs "cat" Hnd Hcat
           parse_cat).
Defined.


Lemma loop_body_advance_witness :
  let inv := nat_build nat_docs in
  [ "cat"; "sat" ] ≠ []
  ∧ ready inv [ "cat"; "sat" ] [1; 0]
  ∧ current_ids inv [ "cat"; "sat" ] [1; 0] = Some [3; 1]
  ∧ (∀ d, Forall (λ x, x = d) [3; 1] →
          loop_body Nat.lt inv [ "cat"; "sat" ] [1; 0] []
          = Continue (S <$> [1; 0]) ([] ++ [d])%list)
  ∧ ((¬ ∃ d, Forall (λ x, x = d) [3; 1]) →
     ∃ p c m, [1; 0] !! p = Some c ∧ [3; 1] !! p = Some m
              ∧ (∀ x, x ∈ [3; 1] → ¬ Nat.lt x m)
              ∧ loop_body Nat.lt inv [ "cat"; "sat" ] [1; 0] []
                = Continue (<[p := c + 1]> [1; 0]) []).
Proof.
  intros inv.
  assert (ready inv [ "cat"; "sat" ] [1; 0]) as Hready.
  { split; [|done]. repeat constructor; vm_compute; by eexists. }
  assert (current_ids inv [ "cat"; "sat" ] [1; 0] = Some [3; 1]) as Hids
    by (vm_compute; reflexivity).
  split; [done|]. split; [done|]. split; [done|].
  by apply (loop_body_advance Nat.lt inv [ "cat"; "sat" ] [1; 0] [] [3; 1]).
Defined.

Lemma search_terminates_witness :
  let inv := nat_build nat_docs in
  parse_text_to_word "cat sat" ≠ ∅
  ∧ (∀ w, w ∈ parse_text_to_word "cat sat" → is_Some (inv !! w))
  ∧ ∃ r, nat_search inv "cat sat" = Ret r.
Proof.
  intros inv. split; [apply parse_cat_sat_not_empty|].
  split; [apply parse_cat_sat_present|].
  destruct (search_terminates Nat.lt elements elements_perm inv "cat sat"
              parse_cat_sat_not_empty parse_cat_sat_present)
    as [_ (r & Hr & _)].
  by exists r.
Defined.

Lemma search_increasing_ids_witness :
  let inv := nat_build nat_docs in
  StronglySorted Nat.lt nat_docs.*1
  ∧ parse_text_to_word "cat sat" ≠ ∅
  ∧ (∀ w, w ∈ parse_text_to_word "cat sat" → is_Some (inv !! w))
  ∧ ∃ r, nat_search inv "cat sat" = Ret r
         ∧ StronglySorted Nat.lt r ∧ NoDup r
         ∧ ∀ x, x ∈ r ↔ in_all inv (parse_text_to_word "cat sat") x.
Proof.
  intros inv. split; [apply nat_docs_increasing|].
  split; [apply parse_cat_sat_not_empty|].
  split; [apply parse_cat_sat_present|].
  apply (search_increasing_ids Nat.lt elements elements_perm
           (Trichotomy0 := nat_lt_trichotomy) nat_docs "cat sat"
           nat_docs_increasing parse_cat_sat_not_empty parse_cat_sat_present).
Defined.

Lemma cat_dog_the_distinct : NoDup [ "cat"; "dog"; "the" ].
Proof.
  repeat (apply NoDup_cons; split;
          [intros Hin; repeat (apply elem_of_cons in Hin as [Hin|Hin]; [done|]);
           by apply elem_of_nil in Hin|]).
  apply NoDup_nil_2.
Qed.

Lemma cat_dog_distinct : NoDup [ "cat"; "dog" ].
Proof.
  repeat (apply NoDup_cons; split;
          [intros Hin; repeat (apply elem_of_cons in Hin as [Hin|Hin]; [done|]);
           by apply elem_of_nil in Hin|]).
  apply NoDup_nil_2.
Qed.

Lemma cat_dog_the_answered :
  Forall (λ q, ∃ l, nat_search (nat_build nat_docs) q = Ret l) [ "cat"; "dog"; "the" ].
Proof. repeat constructor; eexists; vm_compute; reflexivity. Qed.

Lemma cat_dog_answered :
  Forall (λ q, ∃ l, nat_search (nat_build nat_docs) q = Ret l) [ "cat"; "dog" ].
Proof. repeat constructor; eexists; vm_compute; reflexivity. Qed.

Lemma cache_capacity_eviction_witness :
  let inv := nat_build nat_docs in
  let after queries :=
    (WithCache.run Nat.lt elements (WithCache.init_sized 2 inv) queries).2 in
  (0 < 2)%nat
  ∧ NoDup [ "cat"; "dog"; "the" ]
  ∧ Forall (λ q, ∃ l, nat_search inv q = Ret l) [ "cat"; "dog"; "the" ]
  ∧ (∀ queries, (length (lru_entries (cache (after queries))) ≤ 2)%nat)
  ∧ (∃ r0 l0,
       nat_search inv "cat" = Ret l0
       ∧ LRUCache.has "cat" (cache (after [ "cat" ])) = true
       ∧ heap (after [ "cat" ]) !! r0 = Some l0
       ∧ LRUCache.has "cat" (cache (after [ "cat"; "dog" ])) = true
       ∧ ∃ e', WithCache.search Nat.lt elements (after [ "cat"; "dog" ]) "cat"
               = (Ret r0, e')
               ∧ heap e' = heap (after [ "cat"; "dog" ]))
  ∧ WithCache.keys (after [ "cat"; "dog"; "the" ]) = [ "the"; "dog" ]
  ∧ LRUCache.has "cat" (cache (after [ "cat"; "dog"; "the" ])) = false
  ∧ ∃ l0 e', nat_search inv "cat" = Ret l0
             ∧ WithCache.search Nat.lt elements (after [ "cat"; "dog"; "the" ]) "cat"
               = (Ret (length (heap (after [ "cat"; "dog"; "the" ]))), e')
             ∧ heap e' = (heap (after [ "cat"; "dog"; "the" ]) ++ [l0])%list.
Proof.
  intros inv after. split; [lia|].
  split; [apply cat_dog_the_distinct|]. split; [apply cat_dog_the_answered|].
  destruct (cache_capacity_eviction Nat.lt elements 2 inv)
    as (Hcap & _ & _ & Hevict); [lia|].
  split; [intros queries; apply Hcap|]. split.
  - destruct (Hevict [] "cat" [ "dog" ] cat_dog_distinct cat_dog_answered)
      as (r0 & l0 & Hl0 & Hhas & _ & Hr0 & Hkept & _).
    destruct Hkept as (Hstill & _ & e' & Hs & Hheap); [simpl; lia|].
    exists r0, l0. split; [exact Hl0|]. split; [exact Hhas|]. split; [exact Hr0|].
    split; [exact Hstill|]. exists e'. split; [exact Hs | exact Hheap].
  - destruct (Hevict [] "cat" [ "dog"; "the" ] cat_dog_the_distinct
                cat_dog_the_answered)
      as (r0 & l0 & Hl0 & _ & _ & _ & _ & Hfull).
    destruct (Hfull eq_refl) as (Hkeys & Hout & e' & Hs & Hheap).
    split; [exact Hkeys|]. split; [exact Hout|].
    exists l0, e'. split; [exact Hl0|]. split; [exact Hs | exact Hheap].
Defined.

(** The cache of two entries along the queries [cat], [dog], [cat],
    [the]: [cat] is computed once and then read from the cache, and [dog],
    the least recently used, is the one that [the] pushes out. *)
Example cache_scenario :
  let inv := nat_build nat_docs in
  let after queries :=
    (WithCache.run Nat.lt elements (WithCache.init inv) queries).2 in
  WithCache.keys (after [ "cat" ]) = [ "cat" ]
  ∧ WithCache.keys (after [ "cat"; "dog" ]) = [ "dog"; "cat" ]
  ∧ WithCache.keys (after [ "cat"; "dog"; "cat" ]) = [ "cat"; "dog" ]
  ∧ heap (after [ "cat"; "dog"; "cat" ]) = [[1; 3]; [2]]
  ∧ WithCache.keys (after [ "cat"; "dog"; "cat"; "the" ]) = [ "the"; "cat" ].
Proof. repeat split; vm_compute; reflexivity. Qed.

(** C9, as stated, fails: the caller appends 7 to the list it was given
    for the query [cat], and the next call for [cat], a cache hit, returns
    the same object, which now reads 1, 3, 7, and not the result 1, 3. *)
Lemma cache_mutation_corrupts :
  let inv := nat_build nat_docs in
  let e0 := WithCache.init inv in
  let first := WithCache.search Nat.lt elements e0 "cat" in
  let e1 := WithCache.mutate 0 (λ l, (l ++ [7])%list) first.2 in
  let second := WithCache.search Nat.lt elements e1 "cat" in
  first.1 = Ret 0
  ∧ WithCache.contents first.2 first.1 = Ret [1; 3]
  ∧ second.1 = Ret 0
  ∧ WithCache.contents second.2 second.1 = Ret [1; 3; 7]
  ∧ nat_search inv "cat" = Ret [1; 3].
Proof. repeat split; vm_compute; reflexivity. Qed.

Lemma cache_by_reference_witness :
  let e0 := WithCache.init (nat_build nat_docs) in
  let e1 := (WithCache.search Nat.lt elements e0 "cat").2 in
  WithCache.search Nat.lt elements e0 "cat" = (Ret 0, e1)
  ∧ WithCache.contents e1 (Ret 0) = Ret [1; 3]
  ∧ ∃ e3, WithCache.search Nat.lt elements
            (WithCache.mutate 0 (λ l, (l ++ [7])%list) e1) "cat" = (Ret 0, e3)
          ∧ WithCache.contents e3 (Ret 0) = Ret ([1; 3] ++ [7])%list.
Proof.
  intros e0 e1.
  assert (WithCache.search Nat.lt elements e0 "cat" = (Ret 0, e1)) as Hs
    by (vm_compute; reflexivity).
  assert (WithCache.contents e1 (Ret 0) = Ret [1; 3]) as Hc
    by (vm_compute; reflexivity).
  split; [done|]. split; [done|].
  apply (cache_by_reference Nat.lt elements e0 e1 "cat" 0 [1; 3]
           (λ l, (l ++ [7])%list) Hs Hc).
Defined.

(** The scenario of the design document. *)
Example scenario_cat : nat_search (nat_build nat_docs) "cat" = Ret [1; 3].
Proof. vm_compute; reflexivity. Qed.

Example scenario_cat_sat : nat_search (nat_build nat_docs) "cat sat" = Ret [1].
Proof. vm_compute; reflexivity. Qed.

Example scenario_fish : nat_search (nat_build nat_docs) "fish" = Ret [].
Proof. vm_compute; reflexivity. Qed.

Example scenario_the : nat_search (nat_build nat_docs) "the" = Ret [1; 2; 3].
Proof. vm_compute; reflexivity. Qed.

End Concrete.

(** * Further properties *)

(** ** The tokenizer, further *)

Section TokenizerMore.

Lemma split_app_any (sep : ascii → bool) (s t : string) (c : ascii) :
  sep c = true →
  split sep (String.append s (String c t)) = split sep s ++ split sep t.
Proof.
  intros Hc. induction s as [|a s IH]; simpl.
  - by rewrite Hc.
  - rewrite IH. destruct (sep a); [done|].
    pose proof (split_not_nil sep s) as Hne.
    by destruct (split sep s).
Qed.

Lemma normalize_char_not_word (c : ascii) :
  is_word c = false → normalize_char c = space.
Proof. destruct c as [[] [] [] [] [] [] [] []]; vm_compute; congruence. Qed.

Lemma normalize_char_sep (c : ascii) :
  bool_decide (normalize_char c = space) = negb (is_word c).
Proof. destruct c as [[] [] [] [] [] [] [] []]; vm_compute; reflexivity. Qed.

Lemma non_blank_split_nil (sep : ascii → bool) (s : string) :
  non_blank (split sep s) = [] ↔ all_chars sep s = true.
Proof.
  unfold non_blank. induction s as [|c s IH]; simpl.
  - by rewrite filter_cons_False by (by intros ?).
  - destruct (sep c) eqn:E; simpl.
    + by rewrite filter_cons_False by (by intros ?).
    + pose proof (split_not_nil sep s) as Hne.
      destruct (split sep s) as [|w ws]; [done|].
      rewrite filter_cons_True by done. done.
Qed.

Lemma word_list_app (s t : string) (c : ascii) :
  is_word c = false →
  word_list (String.append s (String c t)) = word_list s ++ word_list t.
Proof.
  intros Hc. unfold word_list. rewrite !lower_re_sub, map_string_app. simpl.
  rewrite (normalize_char_not_word c Hc).
  rewrite split_app_any by done. unfold non_blank. by rewrite filter_app.
Qed.

(** The pieces of a split hold no separator. *)
Lemma split_pieces (sep : ascii → bool) (s : string) :
  Forall (λ w, all_chars (λ c, negb (sep c)) w = true) (split sep s).
Proof.
  induction s as [|c s IH]; simpl.
  - by repeat constructor.
  - destruct (sep c) eqn:E.
    + by constructor.
    + destruct (split sep s) as [|w ws]; inversion IH; subst;
        constructor; simpl; try done; by rewrite E.
Qed.

(** X1: a token is not empty and holds no space. *)
Theorem tokens_not_blank (text w : string) :
  w ∈ parse_text_to_word text →
  w ≠ EmptyString
  ∧ all_chars (λ c, negb (bool_decide (c = space))) w = true.
Proof.
  rewrite parse_text_to_word_elem. unfold word_list.
  rewrite non_blank_elem. intros [Hne Hin]. split; [done|].
  pose proof (split_pieces (λ c, bool_decide (c = space)) (lower (re_sub text)))
    as HF.
  rewrite Forall_forall in HF. by apply HF.
Qed.

(** X3: two texts joined by a character that is no word character (a
    space, a newline, a comma) have the tokens of the one and of the
    other. *)
Theorem parse_text_to_word_join (s t : string) (c : ascii) :
  is_word c = false →
  parse_text_to_word (String.append s (String c t))
  = parse_text_to_word s ∪ parse_text_to_word t.
Proof.
  intros Hc. unfold parse_text_to_word.
  by rewrite (word_list_app s t c Hc), list_to_set_app_L.
Qed.

(** X5: a text has no token exactly when it has no word character. *)
Theorem parse_text_to_word_empty_iff (text : string) :
  parse_text_to_word text = ∅
  ↔ all_chars (λ c, negb (is_word c)) text = true.
Proof.
  unfold parse_text_to_word.
  assert (word_list text = [] ↔ all_chars (λ c, negb (is_word c)) text = true)
    as <-.
  { unfold word_list. rewrite lower_re_sub, non_blank_split_nil.
    induction text as [|c text IH]; simpl; [done|].
    by rewrite normalize_char_sep, !andb_true_iff, IH. }
  split.
  - intros Hempty. destruct (word_list text) as [|w ws]; [done|].
    assert (w ∈ (∅ : gset string)) as Hin
      by (rewrite <- Hempty; apply elem_of_list_to_set; by left).
    by apply not_elem_of_empty in Hin.
  - by intros ->.
Qed.

End TokenizerMore.

(** ** The index and the loop, further *)

Section IndexMore.
Context {Id : Type} `{EqDecision Id}.
Context (lt : relation Id) `{!RelDecision lt}.
Variable set_iter : gset string → list string.
Hypothesis set_iter_perm : ∀ X, set_iter X ≡ₚ elements X.

Local Abbreviation index := (gmap string (list Id)).
Local Abbreviation zeros := (fmap (M := list) (λ _ : string, 0)).

Lemma docs_with_app (docs1 docs2 : list (Id * string)) (w : string) :
  docs_with (docs1 ++ docs2) w = docs_with docs1 w ++ docs_with docs2 w.
Proof. unfold docs_with. by rewrite filter_app, fmap_app. Qed.

Lemma build_postings_eq (docs : list (Id * string)) (w : string) :
  postings (build set_iter docs) w = docs_with docs w.
Proof.
  destruct (foldl_process_corpus set_iter set_iter_perm docs ∅ w) as [_ Hpost].
  { intros w'. by rewrite lookup_empty. }
  fold (build set_iter docs) in Hpost. rewrite Hpost.
  unfold postings. by rewrite lookup_empty.
Qed.

(** X6: what one [process_corpus] call does to the index: the identifier
    goes to the end of the postings list of every word of the text, a new
    list for a new word, and no other list changes. *)
Theorem process_corpus_appends (inv : index) (id : Id) (text w : string) :
  (w ∈ parse_text_to_word text →
     process_corpus set_iter inv id text !! w = Some (postings inv w ++ [id]))
  ∧ (w ∉ parse_text_to_word text →
     process_corpus set_iter inv id text !! w = inv !! w).
Proof.
  rewrite (process_corpus_lookup set_iter set_iter_perm).
  split; intros Hw; [by rewrite decide_True | by rewrite decide_False].
Qed.

(** X7: the index after any sequence of [process_corpus] calls on a new
    engine: a word is a key exactly when it is a word of some document, no
    key has an empty list, and the list of a word is the identifiers of
    the documents that have it, in the order of the calls and as many
    times as they were passed. *)
Theorem build_index (docs : list (Id * string)) (w : string) :
  (is_Some (build set_iter docs !! w)
   ↔ ∃ d text, (d, text) ∈ docs ∧ w ∈ parse_text_to_word text)
  ∧ build set_iter docs !! w ≠ Some []
  ∧ postings (build set_iter docs) w = docs_with docs w.
Proof.
  split; [|split].
  - split.
    + intros [l [-> Hne]%(build_lookup set_iter set_iter_perm)].
      destruct (docs_with docs w) as [|d l] eqn:E; [done|].
      assert (d ∈ docs_with docs w) as Hd by (rewrite E; by left).
      apply docs_with_elem in Hd as (text & ? & ?). by exists d, text.
    + intros (d & text & Hin & Hw). exists (docs_with docs w).
      apply (build_lookup set_iter set_iter_perm). split; [done|].
      intros Hnil. assert (d ∈ docs_with docs w) as Hd
        by (apply docs_with_elem; by exists text).
      rewrite Hnil in Hd. by apply elem_of_nil in Hd.
  - by intros [_ ?]%(build_lookup set_iter set_iter_perm).
  - apply build_postings_eq.
Qed.

(** X8: indexing only appends: the documents added later leave the
    identifiers already in a postings list where they are, and put theirs
    after them. *)
Theorem build_append_only (docs1 docs2 : list (Id * string)) (w : string) :
  postings (build set_iter (docs1 ++ docs2)) w
  = postings (build set_iter docs1) w ++ docs_with docs2 w.
Proof. by rewrite !build_postings_eq, docs_with_app. Qed.

(** X9: a query whose only word is a term that some document has returns
    the identifiers of the documents with the term in the order they were
    added, an identifier that was added twice coming twice. *)
Theorem search_single_term_exact (docs : list (Id * string)) (T query : string) :
  (∃ d text, (d, text) ∈ docs ∧ T ∈ parse_text_to_word text) →
  parse_text_to_word query = {[ T ]} →
  search lt set_iter (build set_iter docs) query = Ret (docs_with docs T).
Proof.
  intros (d0 & text0 & Hin0 & HT0) Hparse.
  assert (build set_iter docs !! T = Some (docs_with docs T)) as Hl.
  { apply (build_lookup set_iter set_iter_perm). split; [done|].
    intros Hnil. assert (d0 ∈ docs_with docs T) as Hd0
      by (apply docs_with_elem; by exists text0).
    rewrite Hnil in Hd0. by apply elem_of_nil in Hd0. }
  by apply (search_one_word lt set_iter set_iter_perm _ query T).
Qed.

Lemma passed_all (Ls Ss : list (list Id)) (ids : list Id) (d : Id) (R : list Id) :
  mapM head Ss = Some ids → Forall (λ x, x = d) ids →
  passed Ls Ss R → passed Ls (tail <$> Ss) (R ++ [d]).
Proof.
  intros Hids Hd HP. pose proof (heads_all_equal Ss ids d Hids Hd) as Hheads.
  clear Hids Hd. unfold passed in *. apply Forall2_fmap_r.
  induction HP as [|L s Ls Ss (pre & -> & Hsub) _ IH]; [done|].
  apply Forall_cons in Hheads as [Hs Hheads].
  constructor; [|by apply IH].
  destruct s as [|y t]; simplify_eq/=. exists (pre ++ [d]).
  split; [by rewrite <- (assoc_L (++))|]. by apply sublist_app.
Qed.

Lemma passed_one (Ls Ss : list (list Id)) (ids : list Id) (m : Id) (p : nat)
    (R : list Id) :
  mapM head Ss = Some ids → py_index m ids = Some p →
  passed Ls Ss R → passed Ls (alter tail p Ss) R.
Proof.
  intros Hids%mapM_Some Hp HP. destruct (py_index_Some _ _ _ Hp) as [Hpm _].
  unfold passed in *. apply Forall2_alter_r; [done|].
  intros L s HL Hs (pre & -> & Hsub).
  destruct (Forall2_lookup_r _ _ _ _ _ Hids Hpm) as (s' & Hs' & Hhead).
  rewrite Hs in Hs'. injection Hs' as <-.
  destruct s as [|y t]; simplify_eq/=. exists (pre ++ [m]).
  split; [by rewrite <- (assoc_L (++))|]. by apply sublist_inserts_r.
Qed.

(** X10: on any index, in increasing order or not, what [search] returns
    is a sublist of the postings list of every word of the query: every
    identifier returned is a document with all the words, no more often
    than each list has it. *)
Theorem search_sound (inv : index) (query : string) (r : list Id) :
  search lt set_iter inv query = Ret r →
  ∀ w, w ∈ parse_text_to_word query → r `sublist_of` postings inv w.
Proof.
  intros Hr w Hw.
  destruct (decide (Forall (λ w, is_Some (inv !! w))
                      (set_iter (parse_text_to_word query)))) as [HF|HF].
  - destruct (search_present lt set_iter set_iter_perm inv query) as [_ Hs].
    { intros w' Hw'. rewrite Forall_forall in HF.
      by apply HF, (set_iter_elem set_iter). }
    set (ws := set_iter (parse_text_to_word query)) in *.
    assert (ws ≠ []) as Hne.
    { apply (set_iter_not_nil set_iter set_iter_perm). intros Hempty.
      rewrite Hempty in Hw. by apply not_elem_of_empty in Hw. }
    destruct (search_loop_run lt inv (passed (postings inv <$> ws)) ws Hne)
      with (fuel := search_fuel inv ws) (cs := zeros ws) (R := @nil Id)
      as (R' & Ss & HR' & _ & HP).
    + intros Ss ids d R Hids _ Hd. by apply (passed_all _ Ss ids).
    + intros Ss ids m p R Hids _ _ Hp. by apply (passed_one _ Ss ids m).
    + by apply ready_zeros.
    + fold (left_total inv ws (zeros ws)). rewrite <- left_total_zeros. lia.
    + rewrite remaining_zeros. unfold passed. apply Forall_Forall2_diag.
      apply Forall_forall. intros L _. exists []. split; [done | apply sublist_nil_l].
    + rewrite Hs, HR' in Hr. injection Hr as <-.
      apply (set_iter_elem set_iter set_iter_perm) in Hw.
      apply list_elem_of_lookup in Hw as [k Hk].
      unfold passed in HP.
      destruct (Forall2_lookup_l _ _ _ k (postings inv w) HP)
        as (s & _ & pre & -> & Hsub).
      { rewrite list_lookup_fmap. unfold ws. by rewrite Hk. }
      by apply sublist_inserts_r.
  - apply not_Forall_Exists in HF; [|apply _].
    apply Exists_exists in HF as (w' & Hw' & Hnone). simpl in Hnone.
    rewrite (search_absent lt set_iter set_iter_perm inv query w') in Hr.
    + injection Hr as <-. apply sublist_nil_l.
    + by apply (set_iter_elem set_iter set_iter_perm).
    + destruct (inv !! w') eqn:E; [|done]. destruct Hnone. by eexists.
Qed.

Lemma search_no_token (inv : index) (query : string) :
  parse_text_to_word query = ∅ →
  search lt set_iter inv query = Raise IndexError.
Proof.
  intros Hq. unfold search.
  by rewrite Hq, (set_iter_empty set_iter set_iter_perm).
Qed.

Lemma search_some_token (inv : index) (query : string) :
  parse_text_to_word query ≠ ∅ →
  ∃ r, search lt set_iter inv query = Ret r.
Proof.
  intros Hne.
  destruct (decide (Forall (λ w, is_Some (inv !! w))
                      (set_iter (parse_text_to_word query)))) as [HF|HF].
  - destruct (search_present lt set_iter set_iter_perm inv query) as [_ ->].
    { intros w Hw. rewrite Forall_forall in HF.
      by apply HF, (set_iter_elem set_iter). }
    apply search_loop_returns; [by apply set_iter_not_nil | done].
  - apply not_Forall_Exists in HF; [|apply _].
    apply Exists_exists in HF as (w & Hw & Hnone). simpl in Hnone.
    exists []. apply (search_absent lt set_iter set_iter_perm inv query w).
    + by apply (set_iter_elem set_iter set_iter_perm).
    + destruct (inv !! w) eqn:E; [|done]. destruct Hnone. by eexists.
Qed.

(** X11: [search] fails exactly on the queries without a token, with
    [IndexError]; on every other query, whatever the index, it returns a
    list. *)
Theorem search_outcome (inv : index) (query : string) :
  (search lt set_iter inv query = Raise IndexError
   ↔ parse_text_to_word query = ∅)
  ∧ ((∃ r, search lt set_iter inv query = Ret r)
     ↔ parse_text_to_word query ≠ ∅).
Proof.
  split; split.
  - intros Hraise.
    destruct (decide (parse_text_to_word query = ∅)) as [|Hne]; [done|].
    destruct (search_some_token inv query Hne) as [r Hr]. congruence.
  - apply search_no_token.
  - intros [r Hr] Hq. rewrite (search_no_token inv query Hq) in Hr. done.
  - apply search_some_token.
Qed.

End IndexMore.

(** ** The iteration order of sets does not show *)

Section OrderFree.
Context {Id : Type} `{EqDecision Id}.
Context (lt : relation Id) `{!RelDecision lt}.
Variables set_iter1 set_iter2 : gset string → list string.
Hypothesis set_iter1_perm : ∀ X, set_iter1 X ≡ₚ elements X.
Hypothesis set_iter2_perm : ∀ X, set_iter2 X ≡ₚ elements X.

Lemma process_corpus_same (inv : gmap string (list Id)) (id : Id) (text : string) :
  process_corpus set_iter1 inv id text = process_corpus set_iter2 inv id text.
Proof.
  apply map_eq. intros w.
  by rewrite (process_corpus_lookup set_iter1 set_iter1_perm),
             (process_corpus_lookup set_iter2 set_iter2_perm).
Qed.

Lemma build_same (docs : list (Id * string)) :
  build set_iter1 docs = build set_iter2 docs.
Proof.
  unfold build. generalize (∅ : gmap string (list Id)).
  induction docs as [|d docs IH]; intros inv; simpl; [done|].
  by rewrite process_corpus_same, IH.
Qed.

(** X12: the index does not depend on the order in which Python iterates
    over the set of words of a document: any two orders give the same
    index, for one call and for any sequence of calls. *)
Theorem index_order_free :
  (∀ (inv : gmap string (list Id)) (id : Id) (text : string),
     process_corpus set_iter1 inv id text = process_corpus set_iter2 inv id text)
  ∧ (∀ docs : list (Id * string), build set_iter1 docs = build set_iter2 docs).
Proof. split; [apply process_corpus_same | apply build_same]. Qed.

(** X13: when the identifiers were added in strictly increasing order,
    the outcome of [search] does not depend on the order in which the
    query words are taken either. *)
Theorem search_order_free `{!StrictOrder lt, !Trichotomy lt}
    (docs : list (Id * string)) (query : string) :
  StronglySorted lt docs.*1 →
  search lt set_iter1 (build set_iter1 docs) query
  = search lt set_iter2 (build set_iter2 docs) query.
Proof.
  intros Hdocs. rewrite <- build_same. set (inv := build set_iter1 docs).
  destruct (decide (parse_text_to_word query = ∅)) as [Hempty|Hne].
  { unfold search.
    by rewrite Hempty, (set_iter_empty set_iter1 set_iter1_perm),
               (set_iter_empty set_iter2 set_iter2_perm). }
  destruct (decide (Forall (λ w, is_Some (inv !! w))
                      (elements (parse_text_to_word query)))) as [HF|HF].
  - assert (∀ w, w ∈ parse_text_to_word query →
                 ∃ l, inv !! w = Some l ∧ StronglySorted lt l) as Hwords.
    { intros w Hw. rewrite Forall_forall in HF.
      destruct (HF w) as [l Hl]; [by apply elem_of_elements|].
      exists l. split; [done|]. by eapply (build_sorted lt set_iter1). }
    destruct (search_sorted_index lt set_iter1 set_iter1_perm inv query Hne Hwords)
      as (r1 & -> & Hs1 & Hm1).
    destruct (search_sorted_index lt set_iter2 set_iter2_perm inv query Hne Hwords)
      as (r2 & -> & Hs2 & Hm2).
    f_equal. apply (StronglySorted_unique_strong lt); [|done..|].
    + intros x y _ _ Hxy Hyx. destruct (irreflexivity lt x). by transitivity y.
    + apply NoDup_Permutation; [by apply (StronglySorted_NoDup lt)..|].
      intros x. by rewrite Hm1, Hm2.
  - apply not_Forall_Exists in HF; [|apply _].
    apply Exists_exists in HF as (w & Hw%elem_of_elements & Hnone). simpl in Hnone.
    assert (inv !! w = None) as Hw'.
    { destruct (inv !! w) eqn:E; [|done]. destruct Hnone. by eexists. }
    by rewrite (search_absent lt set_iter1 set_iter1_perm inv query w),
               (search_absent lt set_iter2 set_iter2_perm inv query w).
Qed.

End OrderFree.

(** ** [SimpleEngine] and [BOWEngine] *)

Section DictFacts.
Context {K V : Type} `{EqDecision K}.

Lemma dict_set_new (d : list (K * V)) (k : K) (v : V) :
  k ∉ d.*1 → dict_set d k v = d ++ [(k, v)].
Proof.
  induction d as [|[k' v'] d IH]; simpl; [done|]. intros Hk.
  destruct (decide (k' = k)) as [->|Hne].
  - destruct Hk. by left.
  - rewrite IH; [done|]. intros ?. apply Hk. by right.
Qed.

Lemma dict_set_keys (d : list (K * V)) (k : K) (v : V) :
  (dict_set d k v).*1 = if decide (k ∈ d.*1) then d.*1 else d.*1 ++ [k].
Proof.
  induction d as [|[k' v'] d IH].
  - simpl. destruct (decide (k ∈ [])) as [Hin|_]; [by apply elem_of_nil in Hin | done].
  - cbn [dict_set]. rewrite !fmap_cons. cbn [fst].
    destruct (decide (k' = k)) as [->|Hne].
    + rewrite fmap_cons. cbn [fst].
      destruct (decide (k ∈ k :: d.*1)) as [_|Hn]; [done|]. destruct Hn. by left.
    + rewrite fmap_cons, IH. cbn [fst].
      destruct (decide (k ∈ d.*1)) as [Hin|Hin];
        destruct (decide (k ∈ k' :: d.*1)) as [Hin'|Hin']; try done.
      * destruct Hin'. by right.
      * apply elem_of_cons in Hin' as [?|?]; [by subst | done].
Qed.

Lemma dict_set_NoDup (d : list (K * V)) (k : K) (v : V) :
  NoDup d.*1 → NoDup (dict_set d k v).*1.
Proof.
  intros Hnd. rewrite dict_set_keys. case_decide as Hin; [done|].
  apply NoDup_app. split; [done|]. split; [|apply NoDup_singleton].
  by intros x Hx ->%list_elem_of_singleton.
Qed.

Lemma dict_set_elem (d : list (K * V)) (k k' : K) (v v' : V) :
  NoDup d.*1 →
  (k', v') ∈ dict_set d k v ↔ (k' = k ∧ v' = v) ∨ (k' ≠ k ∧ (k', v') ∈ d).
Proof.
  induction d as [|[k0 v0] d IH]; simpl; intros Hnd.
  - rewrite list_elem_of_singleton. split.
    + intros [= -> ->]. by left.
    + intros [[-> ->]|[_ ?%elem_of_nil]]; done.
  - apply NoDup_cons in Hnd as [Hk0 Hnd].
    destruct (decide (k0 = k)) as [->|Hne].
    + rewrite !elem_of_cons. split.
      * intros [[= -> ->]|Hin]; [by left|]. right. split; [|by right].
        intros ->. apply Hk0. apply list_elem_of_fmap. by exists (k, v').
      * intros [[-> ->]|[Hne [[= -> ->]|Hin]]]; [by left | done | by right].
    + rewrite !elem_of_cons, (IH Hnd). split.
      * intros [[= -> ->]|[[-> ->]|[? ?]]]; [right | by left | right]; split;
          try done; [by left | by right].
      * intros [[-> ->]|[? [[= -> ->]|?]]]; [right; by left | by left | right; by right].
Qed.

End DictFacts.

Section LastText.
Context {Id : Type} `{EqDecision Id}.

Lemma last_text_snoc (docs : list (Id * string)) (id0 id : Id) (text0 text : string) :
  last_text (docs ++ [(id0, text0)]) id text
  ↔ (id = id0 ∧ text = text0) ∨ (id ≠ id0 ∧ last_text docs id text).
Proof.
  unfold last_text. split.
  - intros (before & after & Heq & Hnot).
    destruct after as [|x after _] using rev_ind.
    + apply app_inj_tail in Heq as [_ [= <- <-]]. by left.
    + change (before ++ (id, text) :: after ++ [x])
        with (before ++ ((id, text) :: after) ++ [x]) in Heq.
      rewrite (assoc_L (++)) in Heq. apply app_inj_tail in Heq as [-> <-].
      rewrite fmap_app in Hnot. right. split.
      * intros ->. apply Hnot, elem_of_app. right. by left.
      * exists before, after. split; [done|].
        intros ?. apply Hnot, elem_of_app. by left.
  - intros [[-> ->]|[Hne (before & after & -> & Hnot)]].
    + exists docs, []. split; [done | by intros ?%elem_of_nil].
    + exists before, (after ++ [(id0, text0)]). split.
      * by rewrite <- (assoc_L (++)).
      * rewrite fmap_app. by intros [?|?%list_elem_of_singleton]%elem_of_app.
Qed.

Lemma last_text_nil (id : Id) (text : string) : ¬ last_text [] id text.
Proof. intros (before & after & Heq & _). by destruct before. Qed.

(** The dictionary after a sequence of assignments [d[id] = f(text)]. *)
Lemma dict_fold (V : Type) (f : string → V) (docs : list (Id * string)) :
  let d := foldl (λ d doc, dict_set d doc.1 (f doc.2)) [] docs in
  NoDup d.*1
  ∧ (∀ id v, (id, v) ∈ d ↔ ∃ text, last_text docs id text ∧ v = f text)
  ∧ (NoDup docs.*1 → d = (λ doc, (doc.1, f doc.2)) <$> docs).
Proof.
  induction docs as [|[id0 text0] docs IH] using rev_ind; simpl.
  - split; [constructor|]. split; [|done]. intros id v. split.
    + by intros ?%elem_of_nil.
    + intros (text & []%last_text_nil & _).
  - rewrite foldl_app. simpl. destruct IH as (Hnd & Helem & Horder).
    split; [by apply dict_set_NoDup|]. split.
    + intros id v. rewrite (dict_set_elem _ _ _ _ _ Hnd). split.
      * intros [[-> ->]|[Hne (text & Hlast & ->)%Helem]].
        -- exists text0. split; [|done]. apply last_text_snoc. by left.
        -- exists text. split; [|done]. apply last_text_snoc. by right.
      * intros (text & [[-> ->]|[Hne Hlast]]%last_text_snoc & ->); [by left|].
        right. split; [done|]. apply Helem. by exists text.
    + rewrite fmap_app. intros (Hdocs & Hdisj & _)%NoDup_app.
      rewrite (Horder Hdocs), fmap_app. simpl. apply dict_set_new.
      rewrite <- list_fmap_compose. simpl. intros Hin.
      apply (Hdisj id0); [done | by left].
Qed.

End LastText.

Section SubstringFacts.

Lemma starts_with_spec (text query : string) :
  starts_with text query = true ↔ ∃ post, text = String.append query post.
Proof.
  revert text. induction query as [|a query IH]; intros text; simpl.
  - split; [intros _; by exists text | done].
  - destruct text as [|b text].
    + split; [done | by intros [post ?]].
    + rewrite andb_true_iff, bool_decide_eq_true, IH. split.
      * intros [-> [post ->]]. by exists post.
      * intros [post [= -> ->]]. split; [done | by exists post].
Qed.

(** [query in text] holds exactly when the text is some prefix, the
    query, and some suffix. *)
Lemma str_in_spec (query text : string) :
  str_in query text = true
  ↔ ∃ pre post, text = String.append pre (String.append query post).
Proof.
  induction text as [|c text IH].
  - simpl. rewrite orb_false_r, starts_with_spec. split.
    + intros [post ->]. by exists EmptyString, post.
    + intros (pre & post & Heq). destruct pre; [by exists post | done].
  - cbn [str_in]. rewrite orb_true_iff, starts_with_spec, IH. split.
    + intros [[post ->]|(pre & post & ->)].
      * by exists EmptyString, post.
      * by exists (String c pre), post.
    + intros (pre & post & Heq). destruct pre as [|a pre].
      * left. by exists post.
      * right. simpl in Heq. injection Heq as -> ->. by exists pre, post.
Qed.

Lemma str_in_empty (text : string) : str_in EmptyString text = true.
Proof. by destruct text. Qed.

End SubstringFacts.

Section SimpleFacts.
Context {Id : Type} `{EqDecision Id}.

(** X14: [SimpleEngine.search] after any sequence of [process_corpus]
    calls returns each identifier at most once, and exactly the
    identifiers whose text, the last one given for the identifier, has the
    query as a substring; when every identifier was given once, they come
    in the order the documents were added. *)
Theorem simple_search_spec (docs : list (Id * string)) (query : string) :
  let r := SimpleEngine.search (SimpleEngine.build docs) query in
  NoDup r
  ∧ (∀ id, id ∈ r ↔
       ∃ text, last_text docs id text
               ∧ ∃ pre post, text = String.append pre (String.append query post))
  ∧ (NoDup docs.*1 → r = (filter (λ d, str_in query d.2 = true) docs).*1).
Proof.
  destruct (dict_fold string id docs) as (Hnd & Helem & Horder).
  change (foldl _ [] docs) with (SimpleEngine.build docs) in Hnd, Helem, Horder.
  unfold SimpleEngine.search. split; [|split].
  - eapply sublist_NoDup; [exact Hnd|]. apply fmap_sublist, sublist_filter.
  - intros x. rewrite list_elem_of_fmap. split.
    + intros ([x' text] & -> & [Hin Hd]%list_elem_of_filter). simpl in *.
      apply Helem in Hd as (text' & Hlast & ->). exists text'.
      split; [done|]. by apply str_in_spec.
    + intros (text & Hlast & Hsub). exists (x, text). split; [done|].
      apply list_elem_of_filter. split; [by apply str_in_spec|].
      apply Helem. by exists text.
  - intros Hdocs. rewrite (Horder Hdocs). do 2 f_equal.
    rewrite <- (list_fmap_id docs) at 2. apply list_fmap_ext. by intros ? [].
Qed.

(** X15: the empty query is a substring of every text: [SimpleEngine]
    answers it with every document, in the order of the dictionary. *)
Theorem simple_search_empty_query (id_to_texts : list (Id * string)) :
  SimpleEngine.search id_to_texts EmptyString = id_to_texts.*1.
Proof.
  unfold SimpleEngine.search. f_equal.
  induction id_to_texts as [|d l IH]; [done|].
  rewrite filter_cons_True by apply str_in_empty. by rewrite IH.
Qed.

End SimpleFacts.

Section BowFacts.
Context {Id : Type} `{EqDecision Id}.

Lemma NoDup_fst_unique {B : Type} (l : list (Id * B)) (x : Id) (y1 y2 : B) :
  NoDup l.*1 → (x, y1) ∈ l → (x, y2) ∈ l → y1 = y2.
Proof.
  induction l as [|[x' y'] l IH]; [by intros _ ?%elem_of_nil|].
  rewrite fmap_cons. intros [Hx Hnd]%NoDup_cons. cbn [fst] in Hx.
  assert (∀ y, (x', y) ∈ l → False) as Hno.
  { intros y Hy. apply Hx, list_elem_of_fmap. by exists (x', y). }
  intros [[= -> ->]|H1]%elem_of_cons [[= ->]|H2]%elem_of_cons; try done.
  - by destruct (Hno y2).
  - simplify_eq. by destruct (Hno y1).
  - by apply IH.
Qed.

Context (lt : relation Id) `{!RelDecision lt}.
Variable set_iter : gset string → list string.
Hypothesis set_iter_perm : ∀ X, set_iter X ≡ₚ elements X.

Lemma query_match_spec (query_words : list string) (words : gset string) :
  BOWEngine.query_match query_words words = true
  ↔ ∀ w, w ∈ query_words → w ∈ words.
Proof.
  induction query_words as [|q qs IH]; simpl.
  - split; [by intros _ w ?%elem_of_nil | done].
  - case_decide as Hq.
    + rewrite IH. split.
      * intros Hall w [->|?]%elem_of_cons; [done | by apply Hall].
      * intros Hall w Hw. apply Hall. by right.
    + split; [done|]. intros Hall. destruct Hq. apply Hall. by left.
Qed.

Lemma query_match_subseteq (query : string) (words : gset string) :
  BOWEngine.query_match (set_iter (parse_text_to_word query)) words = true
  ↔ parse_text_to_word query ⊆ words.
Proof.
  rewrite query_match_spec. split.
  - intros Hall w Hw. by apply Hall, (set_iter_elem set_iter).
  - intros Hsub w Hw%(set_iter_elem set_iter set_iter_perm). by apply Hsub.
Qed.

(** X16: [BOWEngine.search] after any sequence of [process_corpus] calls
    returns each identifier at most once, and exactly the identifiers
    whose text, the last one given for the identifier, has every word of
    the query; when every identifier was given once, they come in the
    order the documents were added. *)
Theorem bow_search_spec (docs : list (Id * string)) (query : string) :
  let r := BOWEngine.search set_iter (BOWEngine.build docs) query in
  NoDup r
  ∧ (∀ id, id ∈ r ↔
       ∃ text, last_text docs id text
               ∧ parse_text_to_word query ⊆ parse_text_to_word text)
  ∧ (NoDup docs.*1 →
     r = (filter (λ d, parse_text_to_word query ⊆ parse_text_to_word d.2) docs).*1).
Proof.
  destruct (dict_fold (gset string) parse_text_to_word docs) as (Hnd & Helem & Horder).
  change (foldl _ [] docs) with (BOWEngine.build docs) in Hnd, Helem, Horder.
  unfold BOWEngine.search. split; [|split].
  - eapply sublist_NoDup; [exact Hnd|]. apply fmap_sublist, sublist_filter.
  - intros x. rewrite list_elem_of_fmap. split.
    + intros ([x' words] & -> & [Hin Hd]%list_elem_of_filter). simpl in *.
      apply Helem in Hd as (text' & Hlast & ->). exists text'.
      split; [done|]. by apply query_match_subseteq.
    + intros (text & Hlast & Hsub). exists (x, parse_text_to_word text).
      split; [done|]. apply list_elem_of_filter.
      split; [by apply query_match_subseteq|]. apply Helem. by exists text.
  - intros Hdocs. rewrite (Horder Hdocs). clear Hnd Helem Horder Hdocs.
    induction docs as [|[id text] docs IH]; [done|].
    rewrite fmap_cons. simpl.
    destruct (decide (parse_text_to_word query ⊆ parse_text_to_word text)) as [Hs|Hs].
    + rewrite !filter_cons_True; [|done|by apply query_match_subseteq].
      rewrite !fmap_cons. simpl. by rewrite IH.
    + rewrite !filter_cons_False; [done|done|by rewrite query_match_subseteq].
Qed.

(** X17: a query without a token matches every document: [BOWEngine]
    answers it with all of them, where the inverted index raises. *)
Theorem bow_search_no_token (id_to_word : list (Id * gset string)) (query : string) :
  parse_text_to_word query = ∅ →
  BOWEngine.search set_iter id_to_word query = id_to_word.*1.
Proof.
  intros Hq. unfold BOWEngine.search.
  rewrite Hq, (set_iter_empty set_iter set_iter_perm). f_equal.
  induction id_to_word as [|d l IH]; [done|].
  rewrite filter_cons_True by done. by rewrite IH.
Qed.

Lemma in_all_build (docs : list (Id * string)) (Q : gset string) (x : Id) :
  NoDup docs.*1 → Q ≠ ∅ →
  in_all (build set_iter docs) Q x
  ↔ ∃ text, (x, text) ∈ docs ∧ Q ⊆ parse_text_to_word text.
Proof.
  intros Hnd Hne. unfold in_all. split.
  - intros Hx.
    assert (∀ w, w ∈ Q → ∃ text, (x, text) ∈ docs ∧ w ∈ parse_text_to_word text)
      as Hx'.
    { intros w Hw. specialize (Hx w Hw).
      rewrite (build_postings_eq set_iter set_iter_perm) in Hx.
      by apply docs_with_elem in Hx. }
    destruct (elements Q) as [|w0 ws] eqn:E.
    { apply elements_empty_inv in E. by apply leibniz_equiv in E. }
    destruct (Hx' w0) as (text0 & Hin0 & _).
    { apply elem_of_elements. rewrite E. by left. }
    exists text0. split; [done|]. intros w Hw.
    destruct (Hx' w Hw) as (text & Hin & Hwt).
    by rewrite (NoDup_fst_unique docs x text0 text Hnd Hin0 Hin).
  - intros (text & Hin & Hs) w Hw.
    rewrite (build_postings_eq set_iter set_iter_perm).
    apply docs_with_elem. exists text. split; [done | by apply Hs].
Qed.

(** X18: the inverted index answers as the scan does: when the documents
    were added with strictly increasing identifiers, [search] on the
    inverted index, for a query with at least one token, returns the very
    list that [BOWEngine.search] returns for the same documents. *)
Theorem inverted_index_agrees_with_scan `{!StrictOrder lt, !Trichotomy lt}
    (docs : list (Id * string)) (query : string) :
  StronglySorted lt docs.*1 →
  parse_text_to_word query ≠ ∅ →
  search lt set_iter (build set_iter docs) query
  = Ret (BOWEngine.search set_iter (BOWEngine.build docs) query).
Proof.
  intros Hdocs Hne.
  assert (NoDup docs.*1) as Hnd by (by apply (StronglySorted_NoDup lt)).
  destruct (bow_search_spec docs query) as (HndB & _ & HB).
  specialize (HB Hnd).
  set (B := BOWEngine.search set_iter (BOWEngine.build docs) query) in *.
  assert (StronglySorted lt B) as HsB.
  { rewrite HB. eapply (StronglySorted_sublist lt); [|exact Hdocs].
    apply fmap_sublist, sublist_filter. }
  assert (∀ x, x ∈ B ↔ ∃ text, (x, text) ∈ docs
            ∧ parse_text_to_word query ⊆ parse_text_to_word text) as HmB.
  { intros x. rewrite HB, list_elem_of_fmap. split.
    - intros ([x' text] & -> & [Hs Hin]%list_elem_of_filter). by exists text.
    - intros (text & Hin & Hs). exists (x, text). split; [done|].
      by apply list_elem_of_filter. }
  assert (∃ r, search lt set_iter (build set_iter docs) query = Ret r
               ∧ StronglySorted lt r
               ∧ ∀ x, x ∈ r ↔ in_all (build set_iter docs) (parse_text_to_word query) x)
    as (r & -> & Hsr & Hmr).
  { destruct (decide (Forall (λ w, is_Some (build set_iter docs !! w))
                        (elements (parse_text_to_word query)))) as [HF|HF].
    - apply (search_sorted_index lt set_iter set_iter_perm); [done|].
      intros w Hw. rewrite Forall_forall in HF.
      destruct (HF w) as [l Hl]; [by apply elem_of_elements|].
      exists l. split; [done|]. by eapply (build_sorted lt set_iter).
    - apply not_Forall_Exists in HF; [|apply _].
      apply Exists_exists in HF as (w & Hw%elem_of_elements & Hnone).
      simpl in Hnone.
      assert (build set_iter docs !! w = None) as Hw'.
      { destruct (build set_iter docs !! w) eqn:E; [|done].
        destruct Hnone. by eexists. }
      exists []. split; [by apply (search_absent lt set_iter set_iter_perm _ _ w)|].
      split; [constructor|]. intros x. split; [by intros ?%elem_of_nil|].
      intros Hx. specialize (Hx w Hw). unfold postings in Hx.
      rewrite Hw' in Hx. by apply elem_of_nil in Hx. }
  f_equal. apply (StronglySorted_unique_strong lt); [|done..|].
  { intros x y _ _ Hxy Hyx. destruct (irreflexivity lt x). by transitivity y. }
  apply NoDup_Permutation; [by apply (StronglySorted_NoDup lt)|done|].
  intros x. by rewrite Hmr, HmB, (in_all_build docs _ x Hnd Hne).
Qed.

End BowFacts.

(** ** The cache, further *)

Section CacheMore.
Context {Id : Type} `{EqDecision Id}.
Context (lt : relation Id) `{!RelDecision lt}.
Variable set_iter : gset string → list string.

(** X19: [LRUCache] keeps what it is given: in a cache with room for at
    least one entry, after [set(key, value)] the key is there, [get(key)]
    returns the value, and the cache is still within its size; [get] of a
    key that [has] denies is a [KeyError]. *)
Theorem lru_set_then_get {V : Type} (c : lrucache V) (key : string) (value : V) :
  0 < lru_size c → length (lru_entries c) ≤ lru_size c →
  let c' := LRUCache.set key value c in
  LRUCache.has key c' = true
  ∧ (∃ c'', LRUCache.get key c' = Some (value, c''))
  ∧ lru_size c' = lru_size c
  ∧ length (lru_entries c') ≤ lru_size c'
  ∧ (∀ k, LRUCache.has k c = false → LRUCache.get k c = None).
Proof.
  intros Hpos Hlen c'.
  assert (∃ rest, lru_entries c' = (key, value) :: rest
                  ∧ lru_size c' = lru_size c
                  ∧ length rest < lru_size c) as (rest & He & Hs & Hr).
  { unfold c', LRUCache.set, pylru.setitem.
    destruct (pylru.contains key c) eqn:Hhas; [|case_decide as Hfull]; simpl.
    - eexists. split; [done|]. split; [done|].
      apply bool_decide_eq_true, list_elem_of_fmap in Hhas as ([k v] & Hk & Hin).
      simpl in Hk. subst k.
      pose proof (length_filter_lt (λ kv : string * V, kv.1 ≠ key)
                    (lru_entries c) (key, v) Hin) as Hlt.
      unfold pylru.without. simpl in Hlt. specialize (Hlt ltac:(tauto)). lia.
    - eexists. split; [done|]. split; [done | lia].
    - eexists. split; [done|]. split; [done|].
      rewrite removelast_take, length_take. lia. }
  split; [|split; [|split; [done|split]]].
  - unfold LRUCache.has, pylru.contains. rewrite He.
    apply bool_decide_eq_true. rewrite fmap_cons. by left.
  - unfold LRUCache.get, pylru.getitem. rewrite He. cbn [list_find].
    rewrite decide_True by done. simpl. by eexists.
  - rewrite He, Hs. simpl. lia.
  - intros k Hk. unfold LRUCache.get, pylru.getitem.
    destruct (list_find _ _) as [[i [k' v']]|] eqn:Hfind; [|done].
    apply list_find_Some in Hfind as (Hi & Hk' & _). simpl in Hk'. subst k'.
    apply bool_decide_eq_false in Hk. destruct Hk.
    apply list_elem_of_fmap. exists (k, v').
    split; [done | by eapply list_elem_of_lookup_2].
Qed.

(** X20: indexing does not touch the cache: once a call for [q] has
    returned, the call for [q] after any further [process_corpus] is a
    hit, which returns the same list object with the same contents, the
    result of before the document was added. *)
Theorem cache_not_invalidated (e e1 : cached_engine Id) (q : string) (r : ref)
    (id : Id) (text : string) :
  WithCache.search lt set_iter e q = (Ret r, e1) →
  let e2 := cached_process_corpus set_iter e1 id text in
  LRUCache.has q (cache e2) = true
  ∧ ∃ e3, WithCache.search lt set_iter e2 q = (Ret r, e3)
          ∧ heap e3 = heap e1
          ∧ WithCache.contents e3 (Ret r) = WithCache.contents e1 (Ret r).
Proof.
  intros [rest Hfirst]%cached_search_first e2.
  assert (LRUCache.has q (cache e2) = true) as Hhas.
  { unfold LRUCache.has, pylru.contains. simpl. rewrite Hfirst.
    apply bool_decide_eq_true. rewrite fmap_cons. by left. }
  split; [done|].
  unfold WithCache.search. rewrite Hhas.
  unfold LRUCache.get, pylru.getitem. simpl. rewrite Hfirst. cbn [list_find].
  rewrite decide_True by done. simpl. by eexists.
Qed.

End CacheMore.

(** ** File paths in their order *)

Section StringOrder.

Lemma code_inj (a b : ascii) : code a = code b → a = b.
Proof.
  unfold code. intros Hab.
  by rewrite <- (ascii_nat_embedding a), <- (ascii_nat_embedding b), Hab.
Qed.

Lemma str_ltb_irrefl (s : string) : str_ltb s s = false.
Proof.
  induction s as [|a s IH]; simpl; [done|].
  by rewrite Nat.ltb_irrefl, Nat.eqb_refl.
Qed.

Lemma str_ltb_trans (s t u : string) :
  str_ltb s t = true → str_ltb t u = true → str_ltb s u = true.
Proof.
  revert t u. induction s as [|a s IH]; intros [|b t] [|c u]; simpl; try done.
  destruct (Nat.ltb_spec (code a) (code b)), (Nat.ltb_spec (code b) (code c)),
    (Nat.ltb_spec (code a) (code c)); try done; try lia;
    destruct (Nat.eqb_spec (code a) (code b)), (Nat.eqb_spec (code b) (code c)),
      (Nat.eqb_spec (code a) (code c)); try done; try lia.
  apply IH.
Qed.

Lemma str_ltb_total (s t : string) :
  str_ltb s t = true ∨ s = t ∨ str_ltb t s = true.
Proof.
  revert t. induction s as [|a s IH]; intros [|b t]; simpl; auto.
  destruct (Nat.ltb_spec (code a) (code b)); [by left|].
  destruct (Nat.ltb_spec (code b) (code a)); [by right; right|].
  assert (code a = code b) as Hab by lia.
  rewrite Hab, Nat.eqb_refl. apply code_inj in Hab as ->.
  destruct (IH t) as [?|[->|?]]; auto.
Qed.

Lemma str_lt_strict : StrictOrder str_lt.
Proof.
  split.
  - intros s Hs. unfold str_lt in Hs. by rewrite str_ltb_irrefl in Hs.
  - intros s t u. apply str_ltb_trans.
Qed.

Lemma str_lt_trichotomy : Trichotomy str_lt.
Proof. intros s t. apply str_ltb_total. Qed.

Lemma main_files_increasing : StronglySorted str_lt main_files.
Proof. repeat constructor. Qed.

End StringOrder.

(** ** The callers *)

Section CallerFacts.
Context {S : Type}.
Variable process_corpus_of : S → string → string → S.
Variable search_of : S → string → list event * outcome (list string) * S.

Lemma add_files_none (fs : gmap string string) (files : list string) :
  foldl (λ acc file_path, acc ≫= λ e, add_corpus process_corpus_of fs e file_path)
    None files = None.
Proof. induction files as [|p files IH]; [done | exact IH]. Qed.

Lemma add_files_present (fs : gmap string string) (files texts : list string)
    (engine : S) :
  Forall2 (λ p t, fs !! p = Some t) files texts →
  add_files process_corpus_of fs engine files
  = Some (foldl (λ e d, process_corpus_of e d.1 d.2) engine (zip files texts)).
Proof.
  unfold add_files. intros HF. revert engine.
  induction HF as [|p t files texts Hp _ IH]; intros engine; [done|].
  cbn [foldl zip zip_with]. unfold add_corpus at 2. simpl. rewrite Hp. apply IH.
Qed.

Lemma add_files_missing (fs : gmap string string) (files : list string)
    (engine : S) :
  Exists (λ p, fs !! p = None) files →
  add_files process_corpus_of fs engine files = None.
Proof.
  unfold add_files. intros HE. revert engine.
  induction HE as [p files Hp|p files _ IH]; intros engine; cbn [foldl].
  - unfold add_corpus at 2. simpl. rewrite Hp. apply add_files_none.
  - unfold add_corpus at 2. simpl. destruct (fs !! p); [apply IH|].
    apply add_files_none.
Qed.

(** X21: when one of the four files cannot be opened, [main] ends on the
    error of [open] before it asks for any query, whatever the engine. *)
Theorem main_missing_file (fs : gmap string string) (engine : S)
    (inputs : list string) :
  Exists (λ p, fs !! p = None) main_files →
  main process_corpus_of search_of fs engine inputs = ([], NoSuchFile).
Proof. intros HE. unfold main. by rewrite add_files_missing. Qed.

End CallerFacts.

Section MainFacts.
#[local] Existing Instance str_lt_dec.
Variable set_iter : gset string → list string.
Hypothesis set_iter_perm : ∀ X, set_iter X ≡ₚ elements X.

Local Abbreviation str_search :=
  (search str_lt (RelDecision0 := str_lt_dec) set_iter).

Lemma main_docs_increasing (texts : list string) :
  length texts = length main_files →
  StronglySorted str_lt (zip main_files texts).*1.
Proof.
  intros Hlen. rewrite fst_zip by lia. apply main_files_increasing.
Qed.

Lemma cached_search_of_eq (e : cached_engine string) (query : string) :
  cached_search_of set_iter e query
  = (if LRUCache.has query (cache e) then [CacheHit] else [],
     WithCache.contents (WithCache.search str_lt set_iter e query).2
       (WithCache.search str_lt set_iter e query).1,
     (WithCache.search str_lt set_iter e query).2).
Proof.
  unfold cached_search_of. by destruct (WithCache.search str_lt set_iter e query).
Qed.

Lemma inverted_search_of_eq (inv : gmap string (list string)) (query : string) :
  inverted_search_of set_iter inv query = ([], str_search inv query, inv).
Proof. done. Qed.

(** X22: the corpus of [main] is indexed in increasing order of the file
    paths, so that on it the inverted index is exact whatever the files
    hold: a query with at least one token returns the paths of the files
    that have every word of the query, each once, in increasing order. *)
Theorem main_corpus_exact (fs : gmap string string) (texts : list string) :
  Forall2 (λ p t, fs !! p = Some t) main_files texts →
  ∃ inv, add_files (process_corpus set_iter) fs ∅ main_files = Some inv
    ∧ ∀ query, parse_text_to_word query ≠ ∅ →
        ∃ r, str_search inv query = Ret r
             ∧ StronglySorted str_lt r
             ∧ ∀ path, path ∈ r ↔
                 ∃ text, (path, text) ∈ zip main_files texts
                         ∧ parse_text_to_word query ⊆ parse_text_to_word text.
Proof.
  intros HF. pose proof (Forall2_length _ _ _ HF) as Hlen.
  pose proof str_lt_strict as Hstrict. pose proof str_lt_trichotomy as Htri.
  exists (build set_iter (zip main_files texts)).
  split; [by apply add_files_present|]. intros query Hne.
  pose proof (main_docs_increasing texts (eq_sym Hlen)) as Hsorted.
  assert (NoDup (zip main_files texts).*1) as Hnd.
  { by apply (StronglySorted_NoDup str_lt). }
  set (docs := zip main_files texts) in *.
  destruct (decide (Forall (λ w, is_Some (build set_iter docs !! w))
                      (elements (parse_text_to_word query)))) as [Hall|Hall].
  - destruct (search_sorted_index str_lt set_iter set_iter_perm
                (RelDecision0 := str_lt_dec) (build set_iter docs) query Hne)
      as (r & Hr & Hs & Hm).
    { intros w Hw. rewrite Forall_forall in Hall.
      destruct (Hall w) as [l Hl]; [by apply elem_of_elements|].
      exists l. split; [done|]. by eapply (build_sorted str_lt set_iter). }
    exists r. split; [done|]. split; [done|]. intros path.
    by rewrite Hm, (in_all_build set_iter set_iter_perm docs _ path Hnd Hne).
  - apply not_Forall_Exists in Hall; [|apply _].
    apply Exists_exists in Hall as (w & Hw%elem_of_elements & Hnone).
    simpl in Hnone.
    assert (build set_iter docs !! w = None) as Hw'.
    { destruct (build set_iter docs !! w) eqn:E; [|done].
      destruct Hnone. by eexists. }
    exists []. split; [by apply (search_absent str_lt set_iter set_iter_perm _ _ w)|].
    split; [constructor|]. intros path. split; [by intros ?%elem_of_nil|].
    intros (text & Hin & Hsub). exfalso.
    assert (is_Some (build set_iter docs !! w)) as [l Hl]; [|congruence].
    exists (docs_with docs w). apply (build_lookup set_iter set_iter_perm).
    split; [done|]. intros Hnil.
    assert (path ∈ docs_with docs w) as Hp
      by (apply docs_with_elem; exists text; split; [done | by apply Hsub]).
    rewrite Hnil in Hp. by apply elem_of_nil in Hp.
Qed.

(** X23: the loop of [main] on the inverted index: the lines after the
    first [q] are never read; the loop ends normally at that [q] when
    every line before it has a token, and on the [IndexError] of [search]
    at the first line that has none, an empty line for one. *)
Theorem query_loop_ending (inv : gmap string (list string))
    (before after : list string) :
  "q"%string ∉ before →
  let run := query_loop (inverted_search_of set_iter) inv in
  run (before ++ "q"%string :: after) = run (before ++ ["q"%string])
  ∧ (run (before ++ "q"%string :: after)).2
    = if decide (Forall (λ query, parse_text_to_word query ≠ ∅) before)
      then Finished else Crashed IndexError.
Proof.
  intros Hq run. unfold run. induction before as [|query before IH].
  - cbn [app query_loop]. rewrite !decide_True by done. by split.
  - assert (query ≠ "q"%string) as Hne by (intros ->; apply Hq; by left).
    assert ("q"%string ∉ before) as Hq' by (intros ?; apply Hq; by right).
    destruct (IH Hq') as [IH1 IH2].
    cbn [app query_loop]. rewrite !decide_False by done.
    rewrite !inverted_search_of_eq.
    destruct (decide (parse_text_to_word query = ∅)) as [Hempty|Htok].
    + rewrite (search_no_token str_lt set_iter set_iter_perm inv query Hempty).
      split; [done|]. simpl. rewrite decide_False; [done|].
      by intros [? _]%Forall_cons.
    + destruct (search_some_token str_lt set_iter set_iter_perm inv query Htok)
        as [r ->].
      rewrite IH1.
      destruct (query_loop (inverted_search_of set_iter) inv (before ++ ["q"%string]))
        as [events e] eqn:Hrun.
      split; [done|]. simpl. rewrite IH1 in IH2. simpl in IH2. rewrite IH2.
      destruct (decide (Forall _ before)) as [HF|HF].
      * rewrite decide_True; [done | by constructor].
      * rewrite decide_False; [done|]. by intros [_ ?]%Forall_cons.
Qed.

Lemma without_hits_printed (results : list string) :
  without_hits (Printed <$> results) = Printed <$> results.
Proof.
  unfold without_hits. induction results as [|x l IH]; [done|].
  rewrite fmap_cons, filter_cons_True by done. by rewrite IH.
Qed.

Lemma add_files_cached (fs : gmap string string) (files : list string)
    (inv : gmap string (list string)) :
  add_files (cached_process_corpus set_iter) fs (WithCache.init inv) files
  = WithCache.init <$> add_files (process_corpus set_iter) fs inv files.
Proof.
  unfold add_files. revert inv. induction files as [|p files IH]; intros inv; [done|].
  cbn [foldl]. unfold add_corpus at 2 4. simpl.
  destruct (fs !! p) as [text|]; [apply IH|].
  by rewrite !add_files_none.
Qed.

Lemma query_loop_cached (inv : gmap string (list string))
    (inputs : list string) (e : cached_engine string) :
  WithCache.cache_ok str_lt set_iter 2 inv e →
  without_hits (query_loop (cached_search_of set_iter) e inputs).1
  = (query_loop (inverted_search_of set_iter) inv inputs).1
  ∧ (query_loop (cached_search_of set_iter) e inputs).2
    = (query_loop (inverted_search_of set_iter) inv inputs).2.
Proof.
  revert e. induction inputs as [|query inputs IH]; intros e He; [done|].
  cbn [query_loop]. case_decide; [done|].
  pose proof (cached_search_step str_lt set_iter 2 inv e query ltac:(lia) He)
    as Hstep.
  rewrite cached_search_of_eq, inverted_search_of_eq.
  destruct (search str_lt set_iter inv query) as [l|ex|] eqn:Hsearch.
  - destruct Hstep as (r & e' & -> & He' & Hr & _).
    cbn [fst snd WithCache.contents]. rewrite Hr.
    destruct (IH e' He') as [IH1 IH2].
    destruct (query_loop (cached_search_of set_iter) e' inputs) as [evs1 end1].
    destruct (query_loop (inverted_search_of set_iter) inv inputs) as [evs2 end2].
    simpl in IH1, IH2. subst end2. split; [|done]. cbn [fst app].
    unfold without_hits in *.
    rewrite filter_cons_True by done. f_equal.
    rewrite filter_app, filter_cons_True by done.
    rewrite filter_app. fold (without_hits (Printed <$> l)).
    rewrite without_hits_printed, IH1.
    by destruct (LRUCache.has query (cache e)).
  - destruct Hstep as [-> ->]. done.
  - destruct Hstep as [-> ->]. done.
Qed.

(** X24: the program writes the same with the cache as without it, but
    for the lines of the cache hits, and ends the same way, whatever the
    files and the lines typed. *)
Theorem main_cached_same_output (fs : gmap string string) (inputs : list string) :
  without_hits (main_cached set_iter fs inputs).1
  = (main_inverted set_iter fs inputs).1
  ∧ (main_cached set_iter fs inputs).2 = (main_inverted set_iter fs inputs).2.
Proof.
  unfold main_cached, main_inverted, main. rewrite add_files_cached.
  destruct (add_files (process_corpus set_iter) fs ∅ main_files) as [inv|];
    [|done].
  cbn [fmap option_fmap option_map]. apply query_loop_cached.
  apply (init_sized_ok str_lt (RelDecision0 := str_lt_dec) set_iter 2 inv).
Qed.

End MainFacts.

(** ** The further properties at concrete inputs *)

Section ConcreteMore.
Local Open Scope string_scope.

Lemma the_cat_has_cat : "cat" ∈ parse_text_to_word "The Cat".
Proof. apply parse_text_to_word_elem. vm_compute. right. left. Qed.

Lemma tokens_not_blank_witness :
  "cat" ∈ parse_text_to_word "The Cat"
  ∧ "cat" ≠ ""
  ∧ all_chars (λ c, negb (bool_decide (c = space))) "cat" = true.
Proof.
  split; [apply the_cat_has_cat|].
  apply (tokens_not_blank "The Cat" "cat" the_cat_has_cat).
Defined.

Lemma parse_text_to_word_join_witness :
  is_word ","%char = false
  ∧ parse_text_to_word "cat,dog"
    = parse_text_to_word "cat" ∪ parse_text_to_word "dog".
Proof.
  split; [reflexivity|].
  apply (parse_text_to_word_join "cat" "dog" ","%char). reflexivity.
Defined.

Lemma process_corpus_appends_witness :
  "cat" ∈ parse_text_to_word "The Cat"
  ∧ process_corpus elements (nat_build nat_docs) 4 "The Cat" !! "cat"
    = Some (postings (nat_build nat_docs) "cat" ++ [4])%list.
Proof.
  split; [apply the_cat_has_cat|].
  apply (process_corpus_appends elements elements_perm (nat_build nat_docs) 4
           "The Cat" "cat"), the_cat_has_cat.
Defined.

Lemma build_index_witness :
  (is_Some (nat_build nat_docs !! "cat")
   ↔ ∃ d text, (d, text) ∈ nat_docs ∧ "cat" ∈ parse_text_to_word text)
  ∧ nat_build nat_docs !! "cat" ≠ Some []
  ∧ postings (nat_build nat_docs) "cat" = docs_with nat_docs "cat".
Proof. apply (build_index elements elements_perm nat_docs "cat"). Defined.

Lemma build_append_only_witness :
  postings (nat_build (nat_docs ++ [(4, "a cat")])) "cat"
  = (postings (nat_build nat_docs) "cat" ++ docs_with [(4, "a cat")] "cat")%list.
Proof.
  apply (build_append_only elements elements_perm nat_docs [(4, "a cat")] "cat").
Defined.

Lemma parse_a_cat : parse_text_to_word "Cat!" = {[ "cat" ]}.
Proof. unfold parse_text_to_word. simpl. by rewrite (right_id_L ∅ (∪)). Qed.

Lemma search_single_term_exact_witness :
  let docs := [(1, "the cat"); (1, "the cat"); (0, "a cat")] in
  (∃ d text, (d, text) ∈ docs ∧ "cat" ∈ parse_text_to_word text)
  ∧ parse_text_to_word "Cat!" = {[ "cat" ]}
  ∧ nat_search (nat_build docs) "Cat!" = Ret (docs_with docs "cat")
  ∧ docs_with docs "cat" = [1; 1; 0].
Proof.
  intros docs.
  assert (∃ d text, (d, text) ∈ docs ∧ "cat" ∈ parse_text_to_word text) as Hcat.
  { exists 1, "the cat". split; [by left|].
    apply parse_text_to_word_elem. vm_compute. right. left. }
  split; [done|]. split; [apply parse_a_cat|]. split; [|vm_compute; reflexivity].
  apply (search_single_term_exact Nat.lt elements elements_perm docs "cat" "Cat!"
           Hcat parse_a_cat).
Defined.

Lemma search_sound_witness :
  let inv := nat_build [(2, "a"); (1, "a b"); (3, "b a")] in
  nat_search inv "a b" = Ret [3]
  ∧ ∀ w, w ∈ parse_text_to_word "a b" → [3] `sublist_of` postings inv w.
Proof.
  intros inv.
  assert (nat_search inv "a b" = Ret [3]) as Hr by (vm_compute; reflexivity).
  split; [done|].
  apply (search_sound Nat.lt elements elements_perm inv "a b" [3] Hr).
Defined.

Lemma search_outcome_witness :
  (nat_search (nat_build nat_docs) " ?! " = Raise IndexError
   ↔ parse_text_to_word " ?! " = ∅)
  ∧ ((∃ r, nat_search (nat_build nat_docs) "fish" = Ret r)
     ↔ parse_text_to_word "fish" ≠ ∅).
Proof.
  split.
  - apply (search_outcome Nat.lt elements elements_perm (nat_build nat_docs) " ?! ").
  - apply (search_outcome Nat.lt elements elements_perm (nat_build nat_docs) "fish").
Defined.

Lemma index_order_free_witness :
  build (Id := nat) elements nat_docs = build elements_rev nat_docs.
Proof.
  apply (index_order_free elements elements_rev elements_perm elements_rev_perm).
Defined.

Lemma search_order_free_witness :
  StronglySorted Nat.lt nat_docs.*1
  ∧ search Nat.lt elements (build elements nat_docs) "the sat"
    = search Nat.lt elements_rev (build elements_rev nat_docs) "the sat".
Proof.
  split; [apply nat_docs_increasing|].
  apply (search_order_free Nat.lt elements elements_rev elements_perm
           elements_rev_perm (Trichotomy0 := nat_lt_trichotomy) nat_docs "the sat"
           nat_docs_increasing).
Defined.

Lemma bow_search_spec_witness :
  let docs := [(1, "the cat"); (2, "the dog"); (1, "a dog")] in
  let r := BOWEngine.search elements (BOWEngine.build docs) "dog" in
  NoDup r
  ∧ (∀ id, id ∈ r ↔
       ∃ text, last_text docs id text
               ∧ parse_text_to_word "dog" ⊆ parse_text_to_word text)
  ∧ r = [1; 2].
Proof.
  intros docs r.
  destruct (bow_search_spec elements elements_perm docs "dog") as (Hnd & Hm & _).
  split; [done|]. split; [done|]. vm_compute. reflexivity.
Defined.

Lemma bow_search_no_token_witness :
  parse_text_to_word "" = ∅
  ∧ BOWEngine.search elements (BOWEngine.build nat_docs) "" = [1; 2; 3].
Proof.
  split; [reflexivity|].
  rewrite (bow_search_no_token elements elements_perm
             (BOWEngine.build nat_docs) "" eq_refl).
  vm_compute. reflexivity.
Defined.

Lemma inverted_index_agrees_with_scan_witness :
  StronglySorted Nat.lt nat_docs.*1
  ∧ parse_text_to_word "cat sat" ≠ ∅
  ∧ nat_search (nat_build nat_docs) "cat sat"
    = Ret (BOWEngine.search elements (BOWEngine.build nat_docs) "cat sat").
Proof.
  split; [apply nat_docs_increasing|]. split; [apply parse_cat_sat_not_empty|].
  apply (inverted_index_agrees_with_scan Nat.lt elements elements_perm
           (Trichotomy0 := nat_lt_trichotomy) nat_docs "cat sat"
           nat_docs_increasing parse_cat_sat_not_empty).
Defined.

Lemma lru_set_then_get_witness :
  let c : lrucache nat := LRUCache.init 2 in
  (0 < lru_size c)%nat ∧ (length (lru_entries c) ≤ lru_size c)%nat
  ∧ LRUCache.has "cat" (LRUCache.set "cat" 5 c) = true
  ∧ ∃ c'', LRUCache.get "cat" (LRUCache.set "cat" 5 c) = Some (5, c'').
Proof.
  intros c.
  assert (0 < lru_size c)%nat as Hpos by (simpl; lia).
  assert (length (lru_entries c) ≤ lru_size c)%nat as Hlen by (simpl; lia).
  destruct (lru_set_then_get c "cat" 5 Hpos Hlen) as (Hhas & Hget & _).
  by repeat split.
Defined.

(** After the query [cat], a fourth document with the word is added: the
    cached engine still answers 1, 3, the index itself 1, 3, 4. *)
Lemma cache_not_invalidated_witness :
  let e0 := WithCache.init (nat_build nat_docs) in
  let e1 := (WithCache.search Nat.lt elements e0 "cat").2 in
  let e2 := cached_process_corpus elements e1 4 "a cat" in
  WithCache.search Nat.lt elements e0 "cat" = (Ret 0, e1)
  ∧ (∃ e3, WithCache.search Nat.lt elements e2 "cat" = (Ret 0, e3)
           ∧ WithCache.contents e3 (Ret 0) = Ret [1; 3])
  ∧ nat_search (inverted_index e2) "cat" = Ret [1; 3; 4].
Proof.
  intros e0 e1 e2.
  assert (WithCache.search Nat.lt elements e0 "cat" = (Ret 0, e1)) as Hs
    by (vm_compute; reflexivity).
  split; [done|]. split; [|vm_compute; reflexivity].
  destruct (cache_not_invalidated Nat.lt elements e0 e1 "cat" 0 4 "a cat" Hs)
    as (_ & e3 & Hhit & _ & Hc).
  exists e3. split; [done|]. rewrite Hc. vm_compute. reflexivity.
Defined.

Lemma main_missing_file_witness :
  Exists (λ p, (∅ : gmap string string) !! p = None) main_files
  ∧ main_inverted elements ∅ [ "cat"; "q" ] = ([], NoSuchFile).
Proof.
  assert (Exists (λ p, (∅ : gmap string string) !! p = None) main_files) as HE
    by (by left).
  split; [done|].
  apply (main_missing_file (process_corpus elements) (inverted_search_of elements)
           ∅ ∅ [ "cat"; "q" ] HE).
Defined.

Lemma example_fs_files :
  Forall2 (λ p t, example_fs !! p = Some t) main_files example_texts.
Proof.
  unfold main_files, example_texts.
  repeat (constructor; [vm_compute; reflexivity|]). constructor.
Qed.

Lemma main_corpus_exact_witness :
  Forall2 (λ p t, example_fs !! p = Some t) main_files example_texts
  ∧ ∃ inv, add_files (process_corpus elements) example_fs ∅ main_files = Some inv
      ∧ ∃ r, search str_lt (RelDecision0 := str_lt_dec) elements inv "cat dog" = Ret r
             ∧ StronglySorted str_lt r.
Proof.
  split; [apply example_fs_files|].
  destruct (main_corpus_exact elements elements_perm example_fs example_texts
              example_fs_files) as (inv & Hinv & Hq).
  exists inv. split; [exact Hinv|].
  assert (parse_text_to_word "cat dog" ≠ ∅) as Hne.
  { intros Hempty.
    assert ("cat" ∈ parse_text_to_word "cat dog") as Hin
      by (apply parse_text_to_word_elem; vm_compute; left).
    rewrite Hempty in Hin. by apply not_elem_of_empty in Hin. }
  destruct (Hq "cat dog" Hne) as (r & Hr & Hs & _).
  exists r. split; [exact Hr | exact Hs].
Defined.

Lemma query_loop_ending_witness :
  let run := query_loop (inverted_search_of elements) ∅ in
  ("q" ∉ [ "cat"; "" ])
  ∧ run [ "cat"; ""; "q"; "dog" ] = run [ "cat"; ""; "q" ]
  ∧ (run [ "cat"; ""; "q"; "dog" ]).2 = Crashed IndexError.
Proof.
  intros run.
  assert ("q" ∉ [ "cat"; "" ]) as Hq.
  { intros Hin. repeat (apply elem_of_cons in Hin as [Hin|Hin]; [done|]).
    by apply elem_of_nil in Hin. }
  split; [exact Hq|].
  destruct (query_loop_ending elements elements_perm ∅ [ "cat"; "" ] [ "dog" ] Hq)
    as [Hsame Hend].
  cbn [app] in Hsame, Hend. fold run in Hsame, Hend.
  split; [exact Hsame|]. rewrite Hend. apply decide_False.
  intros [_ [Hempty _]%Forall_cons]%Forall_cons. by apply Hempty.
Defined.

End ConcreteMore.
